(** * Rename-Kit: a shallow embedding of [src/code.js]

    The plugin reads a Figma selection, renames default-named frames to
    ["item"], renames text layers after their text style, and selects the
    text layers whose fill colour is not one of the colours allowed for the
    style.  This file embeds [renameAndCheckColors] and its helpers.

    Modelling choices:
    - a scene node is a tree value carrying its static attributes (id, type,
      visibility, style references, bound fill variables, children); the only
      attribute the plugin writes, [name], lives in a store keyed by node id,
      so a node reachable from two selection roots shares one name, as in the
      host document; the store holds the JS value of [name], a string or
      [undefined] ([None]), since [textNode.name = mapping.newName] assigns
      [undefined] when [mapping] is inherited from [Object.prototype];
    - a node without a [children] property has the empty child list;
    - [textStyleId] / [fillStyleId] are [Some s] when the property holds a
      string and [None] otherwise ([undefined] or [figma.mixed]);
    - [boundVariables.fills] is the list of alias ids ([[]] when
      [boundVariables] or its [fills] entry is missing);
    - the host resolvers [figma.getStyleById] and
      [figma.variables.getVariableByIdAsync] are functions of the id; every
      asynchronous request settles (with a value or a rejection), in an order
      chosen by a scheduler;
    - host writes (name setter, selection setter, notify, close) succeed,
      and the name setter stores the value it is given;
    - user-visible effects and resolver requests are appended to a log. *)

From Stdlib Require Import List Bool Arith Lia String Ascii Permutation.
Import ListNotations.
Open Scope string_scope.
Open Scope nat_scope.
Open Scope list_scope.
Set Warnings "-register-all".

(* ------------------------------------------------------------------ *)
(** ** Data model *)

Inductive node_type : Type :=
| FRAME | GROUP | COMPONENT | INSTANCE | SECTION | TEXT
| OTHER_TYPE (t : string).

Definition node_type_eqb (a b : node_type) : bool :=
  match a, b with
  | FRAME, FRAME | GROUP, GROUP | COMPONENT, COMPONENT
  | INSTANCE, INSTANCE | SECTION, SECTION | TEXT, TEXT => true
  | OTHER_TYPE x, OTHER_TYPE y => String.eqb x y
  | _, _ => false
  end.

Inductive node : Type := mkNode {
  id : nat;
  type : node_type;
  visible : bool;
  textStyleId : option string;
  fillStyleId : option string;
  boundFills : list string;
  children : list node
}.

(** Induction over nodes with their nested child lists. *)
Section NodeInd.
Variable P : node -> Prop.
Hypothesis Hnode : forall i t v ts fs bf cs,
  Forall P cs -> P (mkNode i t v ts fs bf cs).

Fixpoint node_ind' (n : node) : P n :=
  match n with
  | mkNode i t v ts fs bf cs =>
      Hnode i t v ts fs bf cs
        ((fix go (l : list node) : Forall P l :=
            match l with
            | [] => Forall_nil P
            | c :: l' => Forall_cons c (node_ind' c) (go l')
            end) cs)
  end.
End NodeInd.

(** Style records returned by [figma.getStyleById]. *)
Inductive style_type : Type := PAINT | TEXT_STYLE | EFFECT | GRID.

Record style : Type := mkStyle { stype : style_type; sname : string }.

(** Outcome of one [getVariableByIdAsync] request: a variable (its name),
    [null], or a rejection (caught by the [try] block). *)
Inductive var_response : Type :=
| VarFound (name : string)
| VarNull
| VarRejected.

(** The name store: the only mutable attribute of nodes.  A name is a JS
    value: a string ([Some]) or [undefined] ([None]). *)
Definition names_t := nat -> option string.

Definition set_name (nm : names_t) (i : nat) (s : option string) : names_t :=
  fun j => if Nat.eqb j i then s else nm j.

(** Host effects, in the order the plugin performs them. *)
Inductive event : Type :=
| EvGetStyle (sid : string)
| EvGetVariable (vid : string)
| EvNotify (msg : string)
| EvSetSelection (ids : list nat)
| EvScrollIntoView (ids : list nat)
| EvClosePlugin.

Record St : Type := mkSt {
  st_names : names_t;
  st_selection : list node;
  st_log : list event
}.

(* ------------------------------------------------------------------ *)
(** ** Small helpers *)

Fixpoint mem_string (s : string) (l : list string) : bool :=
  match l with
  | [] => false
  | x :: l' => String.eqb x s || mem_string s l'
  end.

Definition is_digit (c : ascii) : bool :=
  let n := nat_of_ascii c in (48 <=? n) && (n <=? 57).

Fixpoint all_digits (s : string) : bool :=
  match s with
  | EmptyString => true
  | String c s' => is_digit c && all_digits s'
  end.

(** [/^Frame( \d+)?$/] on a string. *)
Definition defaultFrameNameRegex (s : string) : bool :=
  match s with
  | String "F" (String "r" (String "a" (String "m" (String "e" rest)))) =>
      match rest with
      | EmptyString => true
      | String " " (String d ds) => all_digits (String d ds)
      | _ => false
      end
  | _ => false
  end.

(** [String(v)] for a name value. *)
Definition js_string (v : option string) : string :=
  match v with Some s => s | None => "undefined" end.

(** [defaultFrameNameRegex.test(node.name)]: [test] converts its argument to
    a string. *)
Definition defaultFrameName (v : option string) : bool :=
  defaultFrameNameRegex (js_string v).

(** [a === b] (and [a !== b] negated) on name values. *)
Definition js_eqb (a b : option string) : bool :=
  match a, b with
  | Some x, Some y => String.eqb x y
  | None, None => true
  | _, _ => false
  end.

(** Decimal rendering of a count, as in a template literal. *)
Fixpoint digits_aux (fuel n : nat) (acc : string) : string :=
  match fuel with
  | 0 => acc
  | S f =>
      let acc' := String (ascii_of_nat (48 + n mod 10)) acc in
      if n <? 10 then acc' else digits_aux f (n / 10) acc'
  end.

Definition string_of_nat (n : nat) : string := digits_aux (S n) n "".

(* ------------------------------------------------------------------ *)
(** ** Frame renaming: [renameDefaultFramesRecursivelyWithCount] *)

Fixpoint renameFrames (n : node) (nm : names_t) : names_t * nat :=
  if negb (visible n) then (nm, 0) else
  let '(nm1, c1) :=
    if node_type_eqb (type n) FRAME && defaultFrameName (nm (id n))
    then (set_name nm (id n) (Some "item"), 1) else (nm, 0) in
  (fix go (cs : list node) (nm : names_t) (c : nat) : names_t * nat :=
     match cs with
     | [] => (nm, c)
     | ch :: cs' => let '(nm', c') := renameFrames ch nm in go cs' nm' (c + c')
     end) (children n) nm1 c1.

(** [for (const node of selection) renameDefaultFramesRecursivelyWithCount(node)] *)
Fixpoint renameFramesAll (sel : list node) (nm : names_t) (c : nat) : names_t * nat :=
  match sel with
  | [] => (nm, c)
  | r :: sel' => let '(nm', c') := renameFrames r nm in renameFramesAll sel' nm' (c + c')
  end.

(** [renameDefaultFramesRecursively]: the earlier renamer, not called by
    the plugin; it has no visibility check and no count. *)
Fixpoint renameDefaultFramesRecursively (n : node) (nm : names_t) : names_t :=
  let nm1 := if node_type_eqb (type n) FRAME && defaultFrameName (nm (id n))
             then set_name nm (id n) (Some "item") else nm in
  (fix go (cs : list node) (nm : names_t) : names_t :=
     match cs with
     | [] => nm
     | ch :: cs' => go cs' (renameDefaultFramesRecursively ch nm)
     end) (children n) nm1.

(* ------------------------------------------------------------------ *)
(** ** Text collection: [findAllTextNodes] and step 3 *)

Fixpoint findAllTextNodes (n : node) : list node :=
  if negb (visible n) then [] else
  if node_type_eqb (type n) TEXT then [n] else
  (fix go (cs : list node) : list node :=
     match cs with
     | [] => []
     | ch :: cs' => findAllTextNodes ch ++ go cs'
     end) (children n).

Definition is_container_type (t : node_type) : bool :=
  match t with
  | FRAME | GROUP | COMPONENT | INSTANCE | SECTION => true
  | _ => false
  end.

Fixpoint collectTextNodes (sel : list node) : list node :=
  match sel with
  | [] => []
  | r :: sel' =>
      (if is_container_type (type r) then findAllTextNodes r
       else if node_type_eqb (type r) TEXT then [r] else [])
      ++ collectTextNodes sel'
  end.

(* ------------------------------------------------------------------ *)
(** ** Style and colour tables *)

(** A value [styleCategories[category]] the code reads [newName] and [color]
    of; [None] is [undefined]. *)
Record mapping : Type := mkMapping { newName : option string; color : option (list string) }.

Definition categories : list (string * string) :=
  [("heading", "heading-text"); ("title", "title-text");
   ("subtitle", "subtitle-text"); ("body", "body-text");
   ("highlighted", "highlighted-text"); ("info", "info-text");
   ("caption", "caption-text"); ("overline", "overline-text")].

Definition colorPaths_regular : string := "colors/content/text/regular/".
Definition colorPaths_inverse : string := "colors/content/text/inverse/".
Definition colorPaths_brand : string := "colors/content/text/brand/".

Definition stateColors : list string :=
  ["colors/state/info"; "colors/state/success"; "colors/state/warning";
   "colors/state/error"; "colors/content/text/regular/disabled"].

Definition colorSet (category : string) : list string :=
  if String.eqb category "highlighted"
  then [String.append colorPaths_brand category;
        String.append colorPaths_inverse category]
  else [String.append colorPaths_regular category;
        String.append colorPaths_inverse category].

(** [styleCategories], built by the [for (const category in categories)] loop. *)
Definition styleCategories : list (string * mapping) :=
  map (fun '(c, nn) => (c, mkMapping (Some nn) (Some (colorSet c)))) categories.

(** The own properties of [styleCategories]. *)
Fixpoint lookup_mapping (k : string) (l : list (string * mapping)) : option mapping :=
  match l with
  | [] => None
  | (k', m) :: l' => if String.eqb k' k then Some m else lookup_mapping k l'
  end.

(** The properties every plain object inherits from [Object.prototype]. *)
Definition objectPrototypeProps : list string :=
  ["constructor"; "__defineGetter__"; "__defineSetter__"; "hasOwnProperty";
   "__lookupGetter__"; "__lookupSetter__"; "isPrototypeOf";
   "propertyIsEnumerable"; "toString"; "valueOf"; "__proto__"; "toLocaleString"].

(** An inherited property: a function, or [Object.prototype] itself for
    [__proto__]; it is truthy, and its [newName] and [color] are
    [undefined]. *)
Definition inheritedMapping : mapping := mkMapping None None.

(** [styleCategories[category]]: the own property, else the inherited one,
    else [undefined] ([None]). *)
Definition styleCategories_get (k : string) : option mapping :=
  match lookup_mapping k styleCategories with
  | Some m => Some m
  | None => if mem_string k objectPrototypeProps then Some inheritedMapping else None
  end.

(** [Array.isArray(mapping.color) ? mapping.color : [mapping.color]] *)
Definition expectedColors (mp : mapping) : list (option string) :=
  match color mp with Some l => map Some l | None => [None] end.

(** [expectedColors.includes(v)] *)
Definition includes (v : option string) (l : list (option string)) : bool :=
  existsb (js_eqb v) l.

(** [style.name.split('/')[0]] *)
Fixpoint first_segment (s : string) : string :=
  match s with
  | EmptyString => EmptyString
  | String c s' => if Ascii.eqb c "/" then EmptyString else String c (first_segment s')
  end.

Definition style_type_eqb (a b : style_type) : bool :=
  match a, b with
  | PAINT, PAINT | TEXT_STYLE, TEXT_STYLE | EFFECT, EFFECT | GRID, GRID => true
  | _, _ => false
  end.

(** [styleCache], a [Map] from style id to the value [getStyleById] gave
    ([null] included); [cache_get] is [None] where [Map.get] is [undefined]. *)
Definition cache := list (string * option style).

Fixpoint cache_get (k : string) (c : cache) : option (option style) :=
  match c with
  | [] => None
  | (k', v) :: c' => if String.eqb k' k then Some v else cache_get k c'
  end.

(** Pending promise of one colour-check callback after its synchronous
    prefix: already settled with its value, or waiting on a variable request. *)
Inductive pending : Type :=
| PDone (r : option node)
| PVar (vid : string) (expected : list (option string)) (tn : node).

Fixpoint set_nth {A} (l : list A) (i : nat) (x : A) : list A :=
  match l, i with
  | [], _ => []
  | _ :: l', 0 => x :: l'
  | y :: l', S i' => y :: set_nth l' i' x
  end.

Fixpoint remove_nth {A} (l : list A) (k : nat) : list A :=
  match l, k with
  | [], _ => []
  | _ :: l', 0 => l'
  | y :: l', S k' => y :: remove_nth l' k'
  end.

(** [Promise.all]: the combined promise resolves once every slot is settled. *)
Fixpoint all_settled {A} (slots : list (option A)) : option (list A) :=
  match slots with
  | [] => Some []
  | None :: _ => None
  | Some r :: s => option_map (cons r) (all_settled s)
  end.

(** [results.filter(node => node !== null)] *)
Fixpoint filter_nonnull (l : list (option node)) : list node :=
  match l with
  | [] => []
  | None :: l' => filter_nonnull l'
  | Some n :: l' => n :: filter_nonnull l'
  end.

Definition plural (n : nat) : string := if Nat.eqb n 1 then "" else "s".

Fixpoint join (sep : string) (l : list string) : string :=
  match l with
  | [] => ""
  | [x] => x
  | x :: l' => String.append x (String.append sep (join sep l'))
  end.

Definition sappend (l : list string) : string := fold_right String.append "" l.

Record report : Type := mkReport {
  frameRenamedCount : nat;
  renamedCount : nat;
  mismatchedNodes : list node
}.

(* ------------------------------------------------------------------ *)
(** ** The main function [renameAndCheckColors] *)

Section Plugin.

(** [figma.getStyleById] ([null] is [None]). *)
Variable getStyleById : string -> option style.
(** [figma.variables.getVariableByIdAsync], the value its promise settles with. *)
Variable getVariableByIdAsync : string -> var_response.
(** The scheduler: given the indices of the promises still pending, it picks
    (modulo their number) the position of the next one to settle. *)
Variable pick : list nat -> nat.

(** [let s = styleCache.get(id); if (s === undefined) { s = figma.getStyleById(id);
    styleCache.set(id, s); }] *)
Definition styleLookup (sid : string) (c : cache) (lg : list event)
  : option style * cache * list event :=
  match cache_get sid c with
  | Some st => (st, c, lg)
  | None => let st := getStyleById sid in (st, (sid, st) :: c, lg ++ [EvGetStyle sid])
  end.

(** State of the first pass (step 4). *)
Record pass1 : Type := mkPass1 {
  p1_names : names_t;
  p1_cache : cache;
  p1_log : list event;
  p1_renamed : nat;
  p1_staged : list (node * mapping)
}.

(** One iteration of [for (const textNode of nodesToCheck)]. *)
Definition firstPassStep (p : pass1) (tn : node) : pass1 :=
  match textStyleId tn with
  | Some tsid =>
      if String.eqb tsid "" then p else
      let '(style, c, lg) := styleLookup tsid (p1_cache p) (p1_log p) in
      let p := mkPass1 (p1_names p) c lg (p1_renamed p) (p1_staged p) in
      match style with
      | Some st =>
          if style_type_eqb (stype st) TEXT_STYLE then
            match styleCategories_get (first_segment (sname st)) with
            | Some mp =>
                let '(nm, r) :=
                  if js_eqb (p1_names p (id tn)) (newName mp)
                  then (p1_names p, p1_renamed p)
                  else (set_name (p1_names p) (id tn) (newName mp), S (p1_renamed p)) in
                mkPass1 nm (p1_cache p) (p1_log p) r (p1_staged p ++ [(tn, mp)])
            | None => p
            end
          else p
      | None => p
      end
  | None => p
  end.

Definition firstPass (nodesToCheck : list node) (p : pass1) : pass1 :=
  fold_left firstPassStep nodesToCheck p.

(** Synchronous prefix of the [async ({ textNode, mapping }) => ...] callback:
    up to the [await] on the variable request, or the whole body when it
    takes the fill-style branch. *)
Definition colorCheckStart (nm : node * mapping) (c : cache) (lg : list event)
  : pending * cache * list event :=
  let '(tn, mp) := nm in
  let expectedColors := expectedColors mp in
  match boundFills tn with
  | variableId :: _ => (PVar variableId expectedColors tn, c, lg ++ [EvGetVariable variableId])
  | [] =>
      match fillStyleId tn with
      | Some fsid =>
          if String.eqb fsid "" then (PDone (Some tn), c, lg) else
          let '(fillStyle, c', lg') := styleLookup fsid c lg in
          let isColorCorrect :=
            match fillStyle with
            | Some fs => includes (Some (sname fs)) expectedColors || mem_string (sname fs) stateColors
            | None => false
            end in
          (PDone (if isColorCorrect then None else Some tn), c', lg')
      | None => (PDone (Some tn), c, lg)
      end
  end.

(** Rest of the callback once the awaited request has settled. *)
Definition settleOne (p : pending) : option node :=
  match p with
  | PDone r => r
  | PVar vid expectedColors tn =>
      let isColorCorrect :=
        match getVariableByIdAsync vid with
        | VarFound name => includes (Some name) expectedColors || mem_string name stateColors
        | VarNull | VarRejected => false
        end in
      if isColorCorrect then None else Some tn
  end.

(** [nodesForColorCheck.map(...)]: the callbacks' synchronous prefixes run in
    array order, threading the style cache and the log. *)
Fixpoint startChecks (l : list (node * mapping)) (c : cache) (lg : list event)
  : list pending * cache * list event :=
  match l with
  | [] => ([], c, lg)
  | x :: l' =>
      let '(p, c1, lg1) := colorCheckStart x c lg in
      let '(ps, c2, lg2) := startChecks l' c1 lg1 in
      (p :: ps, c2, lg2)
  end.

(** Promises settle one at a time, in the order the scheduler picks; each
    settlement fills its own slot of the [Promise.all] result array. *)
Fixpoint settle (fuel : nat) (rem : list nat) (pend : list pending)
  (slots : list (option (option node))) : list (option (option node)) :=
  match fuel with
  | 0 => slots
  | S f =>
      match rem with
      | [] => slots
      | _ =>
          let k := pick rem mod List.length rem in
          let i := nth k rem 0 in
          settle f (remove_nth rem k) pend
            (set_nth slots i (Some (settleOne (nth i pend (PDone None)))))
      end
  end.

(** [await Promise.all(colorCheckPromises)] *)
Definition promiseAll (pend : list pending) : option (list (option node)) :=
  all_settled (settle (List.length pend) (seq 0 (List.length pend)) pend
                 (repeat None (List.length pend))).

(** Step 6: the summary, the selection of mismatches and the exit. *)
Definition summaryParts (frameRenamed renamed : nat) (mismatched : list node) : list string :=
  let parts :=
    (if 0 <? frameRenamed then
       [sappend [string_of_nat frameRenamed; " frame layer"; plural frameRenamed;
                 " renamed to 'item'"]] else [])
    ++ (if 0 <? renamed then
          [sappend [string_of_nat renamed; " text layer"; plural renamed; " renamed"]]
        else [])
    ++ (match mismatched with
        | [] => []
        | _ => [sappend [string_of_nat (List.length mismatched); " mismatched layer";
                         plural (List.length mismatched); " selected"]]
        end) in
  match parts with
  | [] => ["✨ Everything is perfect"]
  | _ => parts
  end.

Definition finish (nm : names_t) (sel : list node) (lg : list event)
  (frameRenamed renamed : nat) (mismatched : list node) : St * report :=
  let msg := String.append (join "; " (summaryParts frameRenamed renamed mismatched)) "." in
  match mismatched with
  | [] => (mkSt nm sel (lg ++ [EvNotify msg; EvClosePlugin]),
           mkReport frameRenamed renamed mismatched)
  | _ => (mkSt nm mismatched
            (lg ++ [EvSetSelection (map id mismatched); EvScrollIntoView (map id mismatched);
                    EvNotify msg; EvClosePlugin]),
          mkReport frameRenamed renamed mismatched)
  end.

Definition renameAndCheckColors (s : St) : St * report :=
  let selection := st_selection s in
  match selection with
  | [] =>
      (mkSt (st_names s) selection
         (st_log s ++ [EvNotify "Please select at least one frame or text layer.";
                       EvClosePlugin]),
       mkReport 0 0 [])
  | _ =>
      let '(nm1, frameRenamed) := renameFramesAll selection (st_names s) 0 in
      let nodesToCheck := collectTextNodes selection in
      match nodesToCheck with
      | [] =>
          (mkSt nm1 selection
             (st_log s ++ [EvNotify "No text layers found in selection."; EvClosePlugin]),
           mkReport frameRenamed 0 [])
      | _ =>
          let p := firstPass nodesToCheck (mkPass1 nm1 [] (st_log s) 0 []) in
          match p1_staged p with
          | [] => finish (p1_names p) selection (p1_log p) frameRenamed (p1_renamed p) []
          | staged =>
              let '(pend, _, lg) := startChecks staged (p1_cache p) (p1_log p) in
              match promiseAll pend with
              | Some results =>
                  finish (p1_names p) selection lg frameRenamed (p1_renamed p)
                    (filter_nonnull results)
              | None =>
                  (* the combined promise never resolves (unreachable, see
                     [promiseAll_settles]) *)
                  (mkSt (p1_names p) selection lg, mkReport frameRenamed (p1_renamed p) [])
              end
          end
      end
  end.

End Plugin.

(* ------------------------------------------------------------------ *)
(** ** Pure reading of the two passes *)

Section Classification.


Variable gs : string -> option style.
Variable gv : string -> var_response.

(** The mapping a text node is classified under (step 4), with the style
    read straight from the resolver. *)
Definition classify (tn : node) : option mapping :=
  match textStyleId tn with
  | Some tsid =>
      if String.eqb tsid "" then None else
      match gs tsid with
      | Some st =>
          if style_type_eqb (stype st) TEXT_STYLE
          then styleCategories_get (first_segment (sname st))
          else None
      | None => None
      end
  | None => None
  end.

Definition stagedOf (l : list node) : list (node * mapping) :=
  flat_map (fun tn => match classify tn with Some mp => [(tn, mp)] | None => [] end) l.

(** The colour identifier of a staged node, by the precedence of the spec:
    the first bound fill variable's name, else the fill style's name. *)
Definition colorIdentifier (tn : node) : option string :=
  match boundFills tn with
  | v :: _ => match gv v with VarFound name => Some name | _ => None end
  | [] =>
      match fillStyleId tn with
      | Some fsid => if String.eqb fsid "" then None else option_map sname (gs fsid)
      | None => None
      end
  end.

(** A staged node is ok iff its colour identifier is permitted for its
    mapping or is a global state colour. *)
Definition colorOk (x : node * mapping) : bool :=
  match colorIdentifier (fst x) with
  | Some cid => includes (Some cid) (expectedColors (snd x)) || mem_string cid stateColors
  | None => false
  end.

Definition expectedMismatches (sel : list node) : list node :=
  map fst (filter (fun x => negb (colorOk x)) (stagedOf (collectTextNodes sel))).

Definition textRenameStep (acc : names_t * nat) (x : node * mapping) : names_t * nat :=
  if js_eqb (fst acc (id (fst x))) (newName (snd x)) then acc
  else (set_name (fst acc) (id (fst x)) (newName (snd x)), S (snd acc)).

Definition cache_ok (c : cache) : Prop :=
  forall k v, cache_get k c = Some v -> v = gs k.

End Classification.

(* ------------------------------------------------------------------ *)
(** ** The effect log *)

Definition is_request (e : event) : bool :=
  match e with EvGetStyle _ | EvGetVariable _ => true | _ => false end.

Definition styleReqs (l : list event) : list string :=
  flat_map (fun e => match e with EvGetStyle s => [s] | _ => [] end) l.

Definition varReqs (l : list event) : list string :=
  flat_map (fun e => match e with EvGetVariable v => [v] | _ => [] end) l.

(** The id of the first bound fill variable, when there is one. *)
Definition firstVar (tn : node) : list string :=
  match boundFills tn with v :: _ => [v] | [] => [] end.

Section LogInvariant.

Variable lg0 : list event.

(** Log invariant of one run: past the initial log [lg0] only requests were
    logged, the style requests are duplicate-free and are exactly the keys
    of the cache, and the variable requests are [vs]. *)
Definition LI (vs : list string) (c : cache) (lg : list event) : Prop :=
  exists new, lg = lg0 ++ new /\ forallb is_request new = true /\
    varReqs new = vs /\ NoDup (styleReqs new) /\
    (forall k, In k (styleReqs new) <-> cache_get k c <> None).

End LogInvariant.

(* ------------------------------------------------------------------ *)
(** ** Trees: subtrees, visited nodes, subsequences *)

(** Every node of a tree, in document (pre-)order. *)
Fixpoint subtree_nodes (n : node) : list node :=
  n :: flat_map subtree_nodes (children n).

(** The nodes a walk that stops at hidden nodes reaches: visible nodes whose
    ancestors within the tree are all visible. *)
Fixpoint visitList (n : node) : list node :=
  if visible n then n :: flat_map visitList (children n) else [].

Definition all_nodes (sel : list node) : list node := flat_map subtree_nodes sel.

Inductive subseq {A} : list A -> list A -> Prop :=
| subseq_nil : subseq [] []
| subseq_keep x l1 l2 : subseq l1 l2 -> subseq (x :: l1) (x :: l2)
| subseq_skip x l1 l2 : subseq l1 l2 -> subseq l1 (x :: l2).

(* ------------------------------------------------------------------ *)
(** ** Frame renaming as a walk over the visited nodes *)

Definition frameStep (acc : names_t * nat) (u : node) : names_t * nat :=
  if node_type_eqb (type u) FRAME && defaultFrameName (fst acc (id u))
  then (set_name (fst acc) (id u) (Some "item"), S (snd acc)) else acc.

(* ------------------------------------------------------------------ *)
(** ** Node identity *)


(* ------------------------------------------------------------------ *)
(** ** Log classification *)

Definition is_final (e : event) : bool :=
  match e with EvNotify _ | EvClosePlugin => true | _ => false end.

Definition is_set_selection (e : event) : bool :=
  match e with EvSetSelection _ => true | _ => false end.

(** Reading a string of decimal digits back as a number, most significant
    digit first, starting from the value [v]. *)
Fixpoint decimal_value (s : string) (v : nat) : nat :=
  match s with
  | EmptyString => v
  | String c s' => decimal_value s' (v * 10 + (nat_of_ascii c - 48))
  end.

(* ------------------------------------------------------------------ *)
(** ** Concrete documents *)

(** Styles: a heading text style, a permitted fill and the error fill. *)
Definition gsDoc (sid : string) : option style :=
  if String.eqb sid "S:heading" then Some (mkStyle TEXT_STYLE "heading/large")
  else if String.eqb sid "S:fill-ok" then Some (mkStyle PAINT "colors/content/text/regular/heading")
  else if String.eqb sid "S:fill-error" then Some (mkStyle PAINT "colors/state/error")
  else None.

Definition gvNull (vid : string) : var_response := VarNull.

Definition gvBrand (vid : string) : var_response :=
  if String.eqb vid "V:brand" then VarFound "colors/content/text/brand/heading" else VarNull.

Definition pickFirst (rem : list nat) : nat := 0.

Definition namesDoc : names_t := fun i => Some (if Nat.eqb i 1 then "Frame 2" else "Text").

Definition headingMapping : mapping :=
  mkMapping (Some "heading-text") (Some (colorSet "heading")).

(** A heading text bound to a variable that no longer resolves, whose fill
    style alone would be permitted. *)
Definition textStaleVar : node :=
  mkNode 5 TEXT true (Some "S:heading") (Some "S:fill-ok") ["V:gone"] [].

(** A heading text filled with the error state colour. *)
Definition textErrorFill : node :=
  mkNode 6 TEXT true (Some "S:heading") (Some "S:fill-error") [] [].

Definition textBrandA : node := mkNode 2 TEXT true (Some "S:heading") None ["V:brand"] [].
Definition textBrandB : node := mkNode 3 TEXT true (Some "S:heading") None ["V:brand"] [].
Definition frameTwoTexts : node := mkNode 1 FRAME true None None [] [textBrandA; textBrandB].

Definition frameOneText : node := mkNode 1 FRAME true None None [] [textBrandA].

Definition hiddenText : node := mkNode 4 TEXT false (Some "S:heading") None [] [].

Definition componentNamedFrame : node := mkNode 1 COMPONENT true None None [] [].

Definition textWithStyle (i : nat) (ts : option string) : node :=
  mkNode i TEXT true ts None [] [].

Definition stDoc (sel : list node) : St := mkSt namesDoc sel [].

(** Names for the frame fixtures: a visible "Frame 2", a hidden "Frame" and
    a group named "Frame 3". *)
Definition namesFrames : names_t :=
  fun i => Some (if Nat.eqb i 1 then "Frame 2" else if Nat.eqb i 7 then "Frame"
                 else if Nat.eqb i 8 then "Frame 3" else "Text").

Definition hiddenFrame : node := mkNode 7 FRAME false None None [] [].

(** A visible frame whose only child is a hidden frame. *)
Definition frameHiddenFrame : node := mkNode 1 FRAME true None None [] [hiddenFrame].

(** A visible frame holding a visible text and a hidden text. *)
Definition frameWithHidden : node := mkNode 1 FRAME true None None [] [textBrandA; hiddenText].

Definition groupNamedFrame : node := mkNode 8 GROUP true None None [] [textBrandA].




(* ------------------------------------------------------------------ *)
(** ** List helper facts *)

Lemma js_eqb_refl v : js_eqb v v = true.
Proof. destruct v; simpl; [apply String.eqb_refl|reflexivity]. Qed.

Lemma js_eqb_eq a b : js_eqb a b = true <-> a = b.
Proof.
  destruct a as [x|], b as [y|]; simpl; split; intros H; try discriminate; auto.
  - apply String.eqb_eq in H; subst; reflexivity.
  - injection H as ->. apply String.eqb_refl.
Qed.

Lemma length_set_nth {A} (l : list A) i x : List.length (set_nth l i x) = List.length l.
Proof. revert i; induction l as [|y l IH]; intros [|i]; simpl; auto. Qed.

Lemma nth_error_set_nth_eq {A} (l : list A) i x :
  i < List.length l -> nth_error (set_nth l i x) i = Some x.
Proof.
  revert i; induction l as [|y l IH]; intros [|i] H; simpl in *; try lia; auto.
  apply IH; lia.
Qed.

Lemma nth_error_set_nth_neq {A} (l : list A) i j x :
  i <> j -> nth_error (set_nth l i x) j = nth_error l j.
Proof.
  revert i j; induction l as [|y l IH]; intros [|i] [|j] H; simpl; auto; try lia.
  all: apply IH; lia.
Qed.

Lemma length_remove_nth {A} (l : list A) k :
  k < List.length l -> List.length l = S (List.length (remove_nth l k)).
Proof.
  revert k; induction l as [|y l IH]; intros [|k] H; simpl in *; try lia; auto.
  rewrite (IH k) by lia; reflexivity.
Qed.

Lemma in_remove_nth {A} (l : list A) k x : In x (remove_nth l k) -> In x l.
Proof.
  revert k; induction l as [|y l IH]; intros [|k] H; simpl in *; auto.
  destruct H as [H|H]; [left; exact H | right; exact (IH k H)].
Qed.

Lemma in_remove_nth_or {A} (l : list A) k x d :
  k < List.length l -> In x l -> x = nth k l d \/ In x (remove_nth l k).
Proof.
  revert k; induction l as [|y l IH]; intros [|k] Hk H; simpl in *; try lia.
  - destruct H; auto.
  - destruct H as [H|H]; auto.
    destruct (IH k ltac:(lia) H); auto.
Qed.

(* ------------------------------------------------------------------ *)
(** ** [Promise.all] does not depend on the settlement order *)

Section SettleFacts.

Variable getVariableByIdAsync : string -> var_response.
Variable pick : list nat -> nat.
Variable pend : list pending.

Let v (j : nat) : option node := settleOne getVariableByIdAsync (nth j pend (PDone None)).

Lemma settle_spec : forall f rem slots,
  List.length rem <= f ->
  (forall i, In i rem -> i < List.length slots) ->
  List.length (settle getVariableByIdAsync pick f rem pend slots) = List.length slots /\
  (forall j, In j rem ->
     nth_error (settle getVariableByIdAsync pick f rem pend slots) j = Some (Some (v j))) /\
  (forall j, ~ In j rem ->
     nth_error (settle getVariableByIdAsync pick f rem pend slots) j = nth_error slots j).
Proof.
  induction f as [|f IH]; intros rem slots Hlen Hin.
  - destruct rem; simpl in *; [|lia]. repeat split; auto. intros j [].
  - destruct (list_eq_dec Nat.eq_dec rem []) as [->|Hne].
    + simpl. repeat split; auto. intros j [].
    + assert (Hunf : settle getVariableByIdAsync pick (S f) rem pend slots =
              let k := pick rem mod List.length rem in
              let i := nth k rem 0 in
              settle getVariableByIdAsync pick f (remove_nth rem k) pend
                (set_nth slots i (Some (v i))))
        by (destruct rem; [contradiction|reflexivity]).
      rewrite Hunf; clear Hunf. cbv zeta.
      set (k := pick rem mod List.length rem).
      assert (Hk : k < List.length rem)
        by (subst k; apply Nat.mod_upper_bound; destruct rem; simpl; [contradiction|lia]).
      set (i := nth k rem 0).
      assert (Hi : In i rem) by (apply nth_In; exact Hk).
      pose proof (length_remove_nth rem k Hk) as Hl.
      destruct (IH (remove_nth rem k) (set_nth slots i (Some (v i))))
        as [IH1 [IH2 IH3]].
      { lia. }
      { intros i0 H0. rewrite length_set_nth. apply Hin, (in_remove_nth _ k), H0. }
      repeat split.
      * rewrite IH1. apply length_set_nth.
      * intros j Hj. destruct (in_remove_nth_or rem k j 0 Hk Hj) as [->|Hj'].
        -- destruct (in_dec Nat.eq_dec (nth k rem 0) (remove_nth rem k)) as [Hr|Hr].
           ++ apply IH2; auto.
           ++ rewrite IH3 by auto. apply nth_error_set_nth_eq, Hin; auto.
        -- apply IH2; auto.
      * intros j Hj. rewrite IH3.
        -- apply nth_error_set_nth_neq. intros ->. contradiction.
        -- intros Hj'. apply Hj, (in_remove_nth _ k), Hj'.
Qed.

End SettleFacts.

Lemma all_settled_map {A} (l : list A) : all_settled (map Some l) = Some l.
Proof. induction l as [|x l IH]; simpl; [reflexivity|rewrite IH; reflexivity]. Qed.

(** Whatever order the scheduler settles the promises in, the combined
    promise resolves with the callbacks' results in array order. *)
Lemma promiseAll_settles gv pick (pend : list pending) :
  promiseAll gv pick pend = Some (map (settleOne gv) pend).
Proof.
  unfold promiseAll.
  set (n := List.length pend).
  destruct (settle_spec gv pick pend n (seq 0 n) (repeat None n)) as [H1 [H2 _]].
  { rewrite length_seq; lia. }
  { intros i Hi. apply in_seq in Hi. rewrite repeat_length. lia. }
  replace (settle gv pick n (seq 0 n) pend (repeat None n))
    with (map Some (map (settleOne gv) pend)).
  { apply all_settled_map. }
  apply nth_error_ext. intros j.
  destruct (Nat.lt_ge_cases j n) as [Hj|Hj].
  - rewrite H2 by (apply in_seq; lia).
    rewrite nth_error_map, nth_error_map.
    rewrite (nth_error_nth' pend (PDone None)) by (subst n; lia). reflexivity.
  - rewrite (proj2 (nth_error_None _ _)) by (rewrite !length_map; subst n; lia).
    symmetry. apply nth_error_None. rewrite H1, repeat_length. lia.
Qed.

(* ------------------------------------------------------------------ *)
(** ** Facts about the two passes *)

Section Passes.

Variable gs : string -> option style.
Variable gv : string -> var_response.

Lemma cache_ok_nil : cache_ok gs [].
Proof. intros k v H; discriminate. Qed.

Lemma styleLookup_ok sid c lg st c' lg' :
  cache_ok gs c -> styleLookup gs sid c lg = (st, c', lg') -> st = gs sid /\ cache_ok gs c'.
Proof.
  unfold styleLookup. intros Hc.
  destruct (cache_get sid c) as [v|] eqn:E; intros H; inversion H; subst; clear H.
  - split; [apply Hc; exact E | exact Hc].
  - split; [reflexivity|].
    intros k v. simpl. destruct (String.eqb sid k) eqn:Ek.
    + apply String.eqb_eq in Ek; subst. intros H; inversion H; reflexivity.
    + apply Hc.
Qed.

Lemma firstPassStep_spec p tn :
  cache_ok gs (p1_cache p) ->
  let p' := firstPassStep gs p tn in
  let add := match classify gs tn with Some mp => [(tn, mp)] | None => [] end in
  cache_ok gs (p1_cache p') /\
  p1_staged p' = p1_staged p ++ add /\
  (p1_names p', p1_renamed p') = fold_left textRenameStep add (p1_names p, p1_renamed p).
Proof.
  intros Hc p' add. subst p' add. unfold firstPassStep, classify.
  destruct (textStyleId tn) as [tsid|]; [|simpl; rewrite app_nil_r; auto].
  destruct (String.eqb tsid "") eqn:Ee; [simpl; rewrite app_nil_r; auto|].
  destruct (styleLookup gs tsid (p1_cache p) (p1_log p)) as [[st c'] lg'] eqn:Es.
  destruct (styleLookup_ok _ _ _ _ _ _ Hc Es) as [-> Hc'].
  destruct (gs tsid) as [s|]; [|simpl; rewrite app_nil_r; auto].
  destruct (style_type_eqb (stype s) TEXT_STYLE); [|simpl; rewrite app_nil_r; auto].
  destruct (styleCategories_get (first_segment (sname s))) as [mp|];
    [|simpl; rewrite app_nil_r; auto].
  simpl. unfold textRenameStep; simpl.
  destruct (js_eqb (p1_names p (id tn)) (newName mp)); simpl; auto.
Qed.

Lemma firstPass_spec l : forall p,
  cache_ok gs (p1_cache p) ->
  let p' := firstPass gs l p in
  cache_ok gs (p1_cache p') /\
  p1_staged p' = p1_staged p ++ stagedOf gs l /\
  (p1_names p', p1_renamed p') = fold_left textRenameStep (stagedOf gs l) (p1_names p, p1_renamed p).
Proof.
  induction l as [|tn l IH]; intros p Hc.
  - simpl. rewrite app_nil_r; auto.
  - unfold firstPass in *. cbn [fold_left].
    assert (Hst : stagedOf gs (tn :: l) =
      (match classify gs tn with Some mp => [(tn, mp)] | None => [] end) ++ stagedOf gs l)
      by reflexivity.
    rewrite Hst.
    destruct (firstPassStep_spec p tn Hc) as [Hc1 [Hs1 Hn1]].
    destruct (IH (firstPassStep gs p tn) Hc1) as [Hc2 [Hs2 Hn2]].
    repeat split; auto.
    + rewrite Hs2, Hs1, app_assoc. reflexivity.
    + rewrite Hn2, fold_left_app, <- Hn1. reflexivity.
Qed.

Lemma colorCheckStart_spec x c lg p c' lg' :
  cache_ok gs c -> colorCheckStart gs x c lg = (p, c', lg') ->
  cache_ok gs c' /\ settleOne gv p = if colorOk gs gv x then None else Some (fst x).
Proof.
  destruct x as [tn mp]. unfold colorCheckStart, colorOk, colorIdentifier; simpl.
  intros Hc.
  destruct (boundFills tn) as [|vid rest].
  - destruct (fillStyleId tn) as [fsid|].
    + destruct (String.eqb fsid "").
      * intros H; inversion H; subst; auto.
      * destruct (styleLookup gs fsid c lg) as [[fs c1] lg1] eqn:Es.
        destruct (styleLookup_ok _ _ _ _ _ _ Hc Es) as [-> Hc1].
        intros H; inversion H; subst; clear H. split; auto. simpl.
        destruct (gs fsid); simpl; auto.
    + intros H; inversion H; subst; auto.
  - intros H; inversion H; subst; clear H. split; auto. simpl.
    destruct (gv vid); reflexivity.
Qed.

Lemma startChecks_spec l : forall c lg ps c' lg',
  cache_ok gs c -> startChecks gs l c lg = (ps, c', lg') ->
  map (settleOne gv) ps = map (fun x => if colorOk gs gv x then None else Some (fst x)) l.
Proof.
  induction l as [|x l IH]; intros c lg ps c' lg' Hc H; simpl in H.
  - inversion H; reflexivity.
  - destruct (colorCheckStart gs x c lg) as [[p c1] lg1] eqn:E1.
    destruct (startChecks gs l c1 lg1) as [[ps1 c2] lg2] eqn:E2.
    inversion H; subst; clear H.
    destruct (colorCheckStart_spec _ _ _ _ _ _ Hc E1) as [Hc1 Hp].
    simpl. rewrite Hp, (IH _ _ _ _ _ Hc1 E2). reflexivity.
Qed.

Lemma filter_nonnull_checks (l : list (node * mapping)) :
  filter_nonnull (map (fun x => if colorOk gs gv x then None else Some (fst x)) l) =
  map fst (filter (fun x => negb (colorOk gs gv x)) l).
Proof. induction l as [|x l IH]; simpl; [reflexivity|destruct (colorOk gs gv x); simpl; congruence]. Qed.

End Passes.

Section LogFacts.

Variable gs : string -> option style.
Variable lg0 : list event.

Lemma LI_init : LI lg0 [] [] lg0.
Proof.
  exists []. rewrite app_nil_r.
  split; [reflexivity|]. split; [reflexivity|]. split; [reflexivity|].
  split; [constructor|].
  intros k; simpl; split; [intros []|intros H; exfalso; apply H; reflexivity].
Qed.

Lemma styleReqs_app l1 l2 : styleReqs (l1 ++ l2) = styleReqs l1 ++ styleReqs l2.
Proof. unfold styleReqs; apply flat_map_app. Qed.

Lemma varReqs_app l1 l2 : varReqs (l1 ++ l2) = varReqs l1 ++ varReqs l2.
Proof. unfold varReqs; apply flat_map_app. Qed.

Lemma LI_styleLookup vs c lg sid st c' lg' :
  LI lg0 vs c lg -> styleLookup gs sid c lg = (st, c', lg') -> LI lg0 vs c' lg'.
Proof.
  unfold styleLookup. intros (new & -> & Hr & Hv & Hnd & Hk).
  destruct (cache_get sid c) as [v|] eqn:E; intros H; injection H; intros; subst st c' lg'.
  - exists new; auto.
  - exists (new ++ [EvGetStyle sid]). rewrite app_assoc. repeat split.
    + rewrite forallb_app, Hr; reflexivity.
    + rewrite varReqs_app, Hv. simpl. apply app_nil_r.
    + rewrite styleReqs_app. simpl.
      apply NoDup_app.
      * exact Hnd.
      * constructor; [intros []|constructor].
      * intros a Ha Hin. destruct Hin as [<-|[]]. apply (proj1 (Hk sid) Ha). exact E.
    + rewrite styleReqs_app. simpl. intros Hin.
      apply in_app_or in Hin as [Hin|[<-|[]]].
      * destruct (String.eqb sid k); [discriminate|]. apply Hk; exact Hin.
      * rewrite String.eqb_refl. discriminate.
    + rewrite styleReqs_app. simpl. destruct (String.eqb sid k) eqn:Ek.
      * apply String.eqb_eq in Ek; subst. intros _. apply in_or_app; right; left; reflexivity.
      * intros Hc. apply in_or_app; left. apply Hk, Hc.
Qed.

Lemma LI_var vs c lg v : LI lg0 vs c lg -> LI lg0 (vs ++ [v]) c (lg ++ [EvGetVariable v]).
Proof.
  intros (new & -> & Hr & Hv & Hnd & Hk).
  exists (new ++ [EvGetVariable v]). rewrite app_assoc. repeat split.
  - rewrite forallb_app, Hr; reflexivity.
  - rewrite varReqs_app, Hv; reflexivity.
  - rewrite styleReqs_app; simpl; rewrite app_nil_r; auto.
  - rewrite styleReqs_app; simpl; rewrite app_nil_r; apply Hk.
  - rewrite styleReqs_app; simpl; rewrite app_nil_r; apply Hk.
Qed.

Lemma LI_firstPass l : forall vs p,
  LI lg0 vs (p1_cache p) (p1_log p) ->
  LI lg0 vs (p1_cache (firstPass gs l p)) (p1_log (firstPass gs l p)).
Proof.
  induction l as [|tn l IH]; intros vs p H; [exact H|].
  unfold firstPass; cbn [fold_left]. apply IH.
  unfold firstPassStep.
  destruct (textStyleId tn) as [tsid|]; [|exact H].
  destruct (String.eqb tsid ""); [exact H|].
  destruct (styleLookup gs tsid (p1_cache p) (p1_log p)) as [[st c'] lg'] eqn:Es.
  pose proof (LI_styleLookup _ _ _ _ _ _ _ H Es) as H'.
  destruct st as [s|]; [|exact H'].
  destruct (style_type_eqb (stype s) TEXT_STYLE); [|exact H'].
  destruct (styleCategories_get (first_segment (sname s))); [|exact H'].
  simpl. destruct (js_eqb (p1_names p (id tn)) _); exact H'.
Qed.

Lemma LI_colorCheckStart x vs c lg p c' lg' :
  LI lg0 vs c lg -> colorCheckStart gs x c lg = (p, c', lg') -> LI lg0 (vs ++ firstVar (fst x)) c' lg'.
Proof.
  destruct x as [tn mp]. unfold colorCheckStart, firstVar; simpl.
  intros H.
  destruct (boundFills tn) as [|vid rest].
  - rewrite app_nil_r.
    destruct (fillStyleId tn) as [fsid|].
    + destruct (String.eqb fsid "").
      * intros E; inversion E; subst; exact H.
      * destruct (styleLookup gs fsid c lg) as [[fs c1] lg1] eqn:Es.
        intros E; inversion E; subst; clear E.
        exact (LI_styleLookup _ _ _ _ _ _ _ H Es).
    + intros E; inversion E; subst; exact H.
  - intros E; inversion E; subst; clear E. apply LI_var, H.
Qed.

Lemma LI_startChecks l : forall vs c lg ps c' lg',
  LI lg0 vs c lg -> startChecks gs l c lg = (ps, c', lg') ->
  LI lg0 (vs ++ flat_map (fun x => firstVar (fst x)) l) c' lg'.
Proof.
  induction l as [|x l IH]; intros vs c lg ps c' lg' H E; simpl in E.
  - inversion E; subst. rewrite app_nil_r. exact H.
  - destruct (colorCheckStart gs x c lg) as [[p c1] lg1] eqn:E1.
    destruct (startChecks gs l c1 lg1) as [[ps1 c2] lg2] eqn:E2.
    inversion E; subst; clear E.
    pose proof (LI_colorCheckStart _ _ _ _ _ _ _ H E1) as H1.
    pose proof (IH _ _ _ _ _ _ H1 E2) as H2.
    simpl. rewrite app_assoc. exact H2.
Qed.

End LogFacts.

(* ------------------------------------------------------------------ *)
(** ** What one run does *)

Lemma finish_fields nm sel lg fc rc mm :
  st_names (fst (finish nm sel lg fc rc mm)) = nm /\
  snd (finish nm sel lg fc rc mm) = mkReport fc rc mm /\
  st_selection (fst (finish nm sel lg fc rc mm)) = match mm with [] => sel | _ => mm end /\
  st_log (fst (finish nm sel lg fc rc mm)) =
    lg ++ (match mm with [] => [] | _ => [EvSetSelection (map id mm); EvScrollIntoView (map id mm)] end)
       ++ [EvNotify (String.append (join "; " (summaryParts fc rc mm)) "."); EvClosePlugin].
Proof. unfold finish; destruct mm; simpl; auto. Qed.

(** The run, read through the pure passes: the names and counts of both
    renaming steps, the mismatches and the selection it leaves, and the
    events it appends to the log. *)
Lemma run_spec gs gv pick s :
  let out := renameAndCheckColors gs gv pick s in
  let sel := st_selection s in
  let fr := renameFramesAll sel (st_names s) 0 in
  let staged := stagedOf gs (collectTextNodes sel) in
  let tr := fold_left textRenameStep staged (fst fr, 0) in
  let mm := expectedMismatches gs gv sel in
  st_names (fst out) = fst tr /\
  snd out = mkReport (snd fr) (snd tr) mm /\
  st_selection (fst out) = match mm with [] => sel | _ => mm end /\
  exists reqs msg,
    st_log (fst out) = st_log s ++ reqs ++
      (match mm with [] => [] | _ => [EvSetSelection (map id mm); EvScrollIntoView (map id mm)] end)
      ++ [EvNotify msg; EvClosePlugin] /\
    forallb is_request reqs = true /\
    NoDup (styleReqs reqs) /\
    varReqs reqs = flat_map (fun x => firstVar (fst x)) staged.
Proof.
  intros out sel fr staged tr mm. subst out sel fr staged tr mm.
  destruct s as [nm sel lg]. unfold renameAndCheckColors, expectedMismatches.
  cbn [st_selection st_names st_log].
  destruct sel as [|r sel'] eqn:Hsel.
  { simpl. repeat split; auto. exists [], "Please select at least one frame or text layer.".
    simpl. repeat split; auto. constructor. }
  rewrite <- Hsel.
  destruct (renameFramesAll sel nm 0) as [nm1 fc] eqn:Hf. cbn [fst snd].
  destruct (collectTextNodes sel) as [|t ts] eqn:Hc.
  { simpl. repeat split; auto. exists [], "No text layers found in selection.".
    simpl. repeat split; auto. constructor. }
  destruct (firstPass_spec gs (t :: ts) (mkPass1 nm1 [] lg 0 []) (cache_ok_nil gs))
    as [Hco [Hst Hnm]].
  pose proof (LI_firstPass gs lg (t :: ts) [] (mkPass1 nm1 [] lg 0 []) (LI_init lg)) as HLI.
  set (p := firstPass gs (t :: ts) (mkPass1 nm1 [] lg 0 [])) in *.
  cbn [p1_staged p1_names p1_renamed p1_cache app] in Hst, Hnm, Hco. rewrite <- Hnm. cbn [fst snd].
  destruct (p1_staged p) as [|x xs] eqn:Hp.
  - rewrite <- Hst. cbn [filter map].
    destruct (finish_fields (p1_names p) sel (p1_log p) fc (p1_renamed p) [])
      as [F1 [F2 [F3 F4]]].
    rewrite F1, F2, F3, F4.
    split; [reflexivity|]. split; [reflexivity|]. split; [reflexivity|].
    destruct HLI as (new & Hl & Hr & Hv & Hnd & _).
    eexists new, _. rewrite Hl, <- app_assoc. repeat split; auto.
  - destruct (startChecks gs (x :: xs) (p1_cache p) (p1_log p)) as [[pend c'] lg'] eqn:Es.
    rewrite promiseAll_settles.
    rewrite (startChecks_spec gs gv _ _ _ _ _ _ Hco Es), filter_nonnull_checks.
    rewrite <- Hst.
    pose proof (LI_startChecks gs lg _ _ _ _ _ _ _ HLI Es) as HLI2.
    set (mm := map fst (filter (fun x0 => negb (colorOk gs gv x0)) (x :: xs))).
    destruct (finish_fields (p1_names p) sel lg' fc (p1_renamed p) mm)
      as [F1 [F2 [F3 F4]]].
    rewrite F1, F2, F3, F4.
    split; [reflexivity|]. split; [reflexivity|]. split; [reflexivity|].
    destruct HLI2 as (new & Hl & Hr & Hv & Hnd & _).
    exists new, (String.append (join "; " (summaryParts fc (p1_renamed p) mm)) ".").
    rewrite Hl, <- app_assoc. repeat split; auto.
Qed.

Lemma subseq_nil_l {A} (l : list A) : subseq [] l.
Proof. induction l; constructor; auto. Qed.

Lemma subseq_refl {A} (l : list A) : subseq l l.
Proof. induction l; constructor; auto. Qed.

Lemma subseq_app {A} (l1 l2 l3 l4 : list A) :
  subseq l1 l2 -> subseq l3 l4 -> subseq (l1 ++ l3) (l2 ++ l4).
Proof. intros H1 H2; induction H1; simpl; try constructor; auto. Qed.

Lemma subseq_in {A} (l1 l2 : list A) x : subseq l1 l2 -> In x l1 -> In x l2.
Proof. intros H; induction H; simpl; intuition. Qed.

Lemma subseq_map {A B} (f : A -> B) l1 l2 : subseq l1 l2 -> subseq (map f l1) (map f l2).
Proof. intros H; induction H; simpl; constructor; auto. Qed.

Lemma subseq_NoDup {A} (l1 l2 : list A) : subseq l1 l2 -> NoDup l2 -> NoDup l1.
Proof.
  intros H; induction H; intros Hn; auto.
  - inversion Hn; subst. constructor; auto. intros Hx; apply H2; eapply subseq_in; eauto.
  - inversion Hn; auto.
Qed.

Lemma subseq_flat_map {A B} (f g : A -> list B) (l : list A) :
  (forall x, In x l -> subseq (f x) (g x)) -> subseq (flat_map f l) (flat_map g l).
Proof.
  induction l as [|x l IH]; intros H; simpl; [constructor|].
  apply subseq_app; [apply H; left; reflexivity|].
  apply IH; intros; apply H; right; assumption.
Qed.

Lemma flat_map_inner (f : node -> list node) (cs : list node) :
  (fix go (cs : list node) : list node :=
     match cs with [] => [] | ch :: cs' => f ch ++ go cs' end) cs = flat_map f cs.
Proof. induction cs; simpl; congruence. Qed.

Lemma findAllTextNodes_eq n :
  findAllTextNodes n =
  if negb (visible n) then [] else
  if node_type_eqb (type n) TEXT then [n] else flat_map findAllTextNodes (children n).
Proof. destruct n; simpl. rewrite flat_map_inner; reflexivity. Qed.

Lemma findAllTextNodes_subseq_visit n : subseq (findAllTextNodes n) (visitList n).
Proof.
  induction n as [i t v ts fs bf cs IH] using node_ind'.
  rewrite findAllTextNodes_eq. simpl. destruct v; simpl; [|constructor].
  destruct (node_type_eqb t TEXT).
  - constructor. apply subseq_nil_l.
  - constructor. apply subseq_flat_map. intros x Hx. rewrite Forall_forall in IH. auto.
Qed.

Lemma visit_subseq_subtree n : subseq (visitList n) (subtree_nodes n).
Proof.
  induction n as [i t v ts fs bf cs IH] using node_ind'.
  simpl. destruct v.
  - constructor. apply subseq_flat_map. intros x Hx. rewrite Forall_forall in IH. auto.
  - apply subseq_nil_l.
Qed.


Lemma subseq_trans {A} (l1 l2 l3 : list A) : subseq l1 l2 -> subseq l2 l3 -> subseq l1 l3.
Proof.
  intros H12 H23; revert l1 H12; induction H23; intros l0 H12.
  - exact H12.
  - inversion H12; subst; constructor; auto.
  - constructor; auto.
Qed.

Lemma collect_subseq sel :
  subseq (collectTextNodes sel) (flat_map subtree_nodes sel).
Proof.
  induction sel as [|r sel IH]; simpl; [constructor|].
  apply subseq_app; auto.
  destruct (is_container_type (type r)).
  - eapply subseq_trans; [apply findAllTextNodes_subseq_visit|apply visit_subseq_subtree].
  - destruct (node_type_eqb (type r) TEXT).
    + destruct r; simpl. constructor. apply subseq_nil_l.
    + apply subseq_nil_l.
Qed.

Lemma stagedOf_subseq gs l : subseq (map fst (stagedOf gs l)) l.
Proof.
  induction l as [|tn l IH]; simpl; [constructor|].
  unfold stagedOf in *; simpl. destruct (classify gs tn); simpl; constructor; auto.
Qed.

Lemma frameStep_eq nm c u :
  frameStep (nm, c) u =
  if node_type_eqb (type u) FRAME && defaultFrameName (nm (id u))
  then (set_name nm (id u) (Some "item"), S c) else (nm, c).
Proof. reflexivity. Qed.

Lemma textRenameStep_eq nm c x :
  textRenameStep (nm, c) x =
  if js_eqb (nm (id (fst x))) (newName (snd x)) then (nm, c)
  else (set_name nm (id (fst x)) (newName (snd x)), S c).
Proof. reflexivity. Qed.

Lemma frameStep_shift L : forall nm a b,
  fold_left frameStep L (nm, a + b) =
  (fst (fold_left frameStep L (nm, b)), a + snd (fold_left frameStep L (nm, b))).
Proof.
  induction L as [|u L IH]; intros nm a b; simpl; [reflexivity|].
  rewrite !frameStep_eq.
  destruct (node_type_eqb (type u) FRAME && defaultFrameName (nm (id u))).
  - rewrite <- IH. f_equal. f_equal. lia.
  - apply IH.
Qed.

Lemma renameFrames_walk n : forall nm c,
  (fst (renameFrames n nm), c + snd (renameFrames n nm)) =
  fold_left frameStep (visitList n) (nm, c).
Proof.
  induction n as [i t v ts fs bf cs IH] using node_ind'. intros nm c.
  assert (Hgo : forall nm c,
    (fix go (cs : list node) (nm : names_t) (c : nat) : names_t * nat :=
       match cs with
       | [] => (nm, c)
       | ch :: cs' => let '(nm', c') := renameFrames ch nm in go cs' nm' (c + c')
       end) cs nm c = fold_left frameStep (flat_map visitList cs) (nm, c)).
  { clear nm c. induction IH as [|ch cs Hch Hcs IHcs]; intros nm c; simpl; [reflexivity|].
    specialize (Hch nm c).
    destruct (renameFrames ch nm) as [nm' c'] eqn:E. simpl in Hch.
    rewrite fold_left_app, <- Hch. apply IHcs. }
  simpl. destruct v; simpl.
  - rewrite frameStep_eq. cbn [type id].
    destruct (node_type_eqb t FRAME && defaultFrameName (nm i)); simpl;
      rewrite Hgo.
    + replace (S c) with (c + 1) by lia. rewrite frameStep_shift. reflexivity.
    + replace c with (c + 0) at 2 by lia. rewrite frameStep_shift. reflexivity.
  - f_equal; lia.
Qed.

Lemma renameFramesAll_walk sel : forall nm c,
  renameFramesAll sel nm c = fold_left frameStep (flat_map visitList sel) (nm, c).
Proof.
  induction sel as [|r sel IH]; intros nm c; simpl; [reflexivity|].
  pose proof (renameFrames_walk r nm c) as W.
  destruct (renameFrames r nm) as [nm' c'] eqn:E. simpl in W.
  rewrite fold_left_app, <- W. apply IH.
Qed.

Lemma frameStep_persist L : forall nm c i,
  defaultFrameName (nm i) = false ->
  defaultFrameName (fst (fold_left frameStep L (nm, c)) i) = false.
Proof.
  induction L as [|u L IH]; intros nm c i H; simpl; [exact H|].
  rewrite frameStep_eq.
  destruct (node_type_eqb (type u) FRAME && defaultFrameName (nm (id u))); apply IH; auto.
  unfold set_name. destruct (Nat.eqb i (id u)); auto.
Qed.

Lemma frameStep_done L : forall nm c u,
  In u L -> node_type_eqb (type u) FRAME = true ->
  defaultFrameName (fst (fold_left frameStep L (nm, c)) (id u)) = false.
Proof.
  induction L as [|w L IH]; intros nm c u Hu Hf; [destruct Hu|].
  simpl. destruct Hu as [->|Hu]; [|destruct (frameStep (nm, c) w); apply IH; auto].
  rewrite frameStep_eq, Hf; simpl.
  destruct (defaultFrameName (nm (id u))) eqn:E; simpl;
    apply frameStep_persist; auto.
  unfold set_name. rewrite Nat.eqb_refl. reflexivity.
Qed.


(* ------------------------------------------------------------------ *)
(** ** Text renaming facts *)

Lemma textRename_persist L : forall nm c i,
  (forall x, In x L -> defaultFrameName (newName (snd x)) = false) ->
  defaultFrameName (nm i) = false ->
  defaultFrameName (fst (fold_left textRenameStep L (nm, c)) i) = false.
Proof.
  induction L as [|x L IH]; intros nm c i HL H; simpl; [exact H|].
  assert (HL' : forall y, In y L -> defaultFrameName (newName (snd y)) = false)
    by (intros y Hy; apply HL; right; exact Hy).
  rewrite textRenameStep_eq.
  destruct (js_eqb (nm (id (fst x))) (newName (snd x))); apply IH; auto.
  unfold set_name. destruct (Nat.eqb i (id (fst x))); auto.
  apply HL; left; reflexivity.
Qed.


Lemma textRename_keep L : forall nm c i,
  (forall y, In y L -> id (fst y) = i -> newName (snd y) = nm i) ->
  fst (fold_left textRenameStep L (nm, c)) i = nm i.
Proof.
  induction L as [|y L IH]; intros nm c i H; simpl; [reflexivity|].
  rewrite textRenameStep_eq.
  destruct (js_eqb (nm (id (fst y))) (newName (snd y))).
  { apply IH; intros z Hz; apply H; right; exact Hz. }
  rewrite IH.
  - unfold set_name. destruct (Nat.eqb i (id (fst y))) eqn:E; auto.
    apply Nat.eqb_eq in E. apply H; [left; reflexivity|symmetry; exact E].
  - intros z Hz Hi. unfold set_name. destruct (Nat.eqb i (id (fst y))) eqn:E.
    + apply Nat.eqb_eq in E. rewrite (H z (or_intror Hz) Hi).
      symmetry. apply H; [left; reflexivity|symmetry; exact E].
    + apply H; [right; exact Hz|exact Hi].
Qed.


Lemma existsb_id_none (L : list node) i (q : node -> bool) :
  (forall v, In v L -> id v <> i) -> existsb (fun v => Nat.eqb (id v) i && q v) L = false.
Proof.
  induction L as [|v L IH]; intros H; simpl; [reflexivity|].
  rewrite (proj2 (Nat.eqb_neq (id v) i)) by (apply H; left; reflexivity).
  apply IH. intros w Hw; apply H; right; exact Hw.
Qed.

(** With distinct ids, the walk renames exactly the visited default-named
    frames, and counts them. *)
Lemma frameWalk_spec L : forall nm c,
  NoDup (map id L) ->
  let r := fold_left frameStep L (nm, c) in
  (forall i, fst r i =
     if existsb (fun u => Nat.eqb (id u) i &&
                   (node_type_eqb (type u) FRAME && defaultFrameName (nm i))) L
     then Some "item" else nm i) /\
  snd r = c + List.length (filter (fun u => node_type_eqb (type u) FRAME &&
                                          defaultFrameName (nm (id u))) L).
Proof.
  induction L as [|u L IH]; intros nm c Hnd r; subst r; simpl.
  { split; [reflexivity|lia]. }
  inversion Hnd as [|? ? Hu HndL]; subst.
  assert (Hne : forall v, In v L -> id v <> id u)
    by (intros v Hv E; apply Hu; rewrite <- E; apply in_map; exact Hv).
  rewrite frameStep_eq.
  destruct (node_type_eqb (type u) FRAME && defaultFrameName (nm (id u))) eqn:Eq.
  - destruct (IH (set_name nm (id u) (Some "item")) (S c) HndL) as [H1 H2].
    assert (Hsame : forall v, In v L -> set_name nm (id u) (Some "item") (id v) = nm (id v)).
    { intros v Hv. unfold set_name. rewrite (proj2 (Nat.eqb_neq _ _) (Hne v Hv)). reflexivity. }
    split.
    + intros i. rewrite H1.
      destruct (Nat.eqb (id u) i) eqn:Ei; simpl.
      * apply Nat.eqb_eq in Ei; subst i. rewrite Eq.
        rewrite existsb_id_none by exact Hne.
        unfold set_name; rewrite Nat.eqb_refl; reflexivity.
      * assert (Hi : set_name nm (id u) (Some "item") i = nm i).
        { unfold set_name. destruct (Nat.eqb i (id u)) eqn:E'; auto.
          apply Nat.eqb_eq in E'; subst; rewrite Nat.eqb_refl in Ei; discriminate. }
        rewrite Hi. reflexivity.
    + rewrite H2. simpl.
      rewrite (filter_ext_in _ (fun v => node_type_eqb (type v) FRAME && defaultFrameName (nm (id v)))).
      * lia.
      * intros v Hv. rewrite Hsame by exact Hv. reflexivity.
  - destruct (IH nm c HndL) as [H1 H2]. split.
    + intros i. rewrite H1.
      destruct (Nat.eqb (id u) i) eqn:Ei; simpl; [|reflexivity].
      apply Nat.eqb_eq in Ei; subst i. rewrite Eq. reflexivity.
    + rewrite H2. reflexivity.
Qed.

Lemma NoDup_visit_ids n : NoDup (map id (subtree_nodes n)) -> NoDup (map id (visitList n)).
Proof. apply subseq_NoDup, subseq_map, visit_subseq_subtree. Qed.

(** Every collected node is a text node. *)
Lemma findAllTextNodes_text n u :
  In u (findAllTextNodes n) -> node_type_eqb (type u) TEXT = true.
Proof.
  revert u. induction n as [i t v ts fs bf cs IH] using node_ind'. intros u Hu.
  rewrite findAllTextNodes_eq in Hu. simpl in Hu.
  destruct v; simpl in Hu; [|destruct Hu].
  destruct (node_type_eqb t TEXT) eqn:Et.
  - destruct Hu as [<-|[]]. exact Et.
  - apply in_flat_map in Hu as [c [Hc Hu]].
    rewrite Forall_forall in IH. exact (IH c Hc u Hu).
Qed.

Lemma collect_text sel u : In u (collectTextNodes sel) -> node_type_eqb (type u) TEXT = true.
Proof.
  induction sel as [|r sel IH]; simpl; [intros []|].
  intros Hu. apply in_app_or in Hu as [Hu|Hu]; [|auto].
  destruct (is_container_type (type r)).
  - eapply findAllTextNodes_text; eauto.
  - destruct (node_type_eqb (type r) TEXT) eqn:Et; [|destruct Hu].
    destruct Hu as [<-|[]]. exact Et.
Qed.

Lemma findAllTextNodes_visit n u : In u (findAllTextNodes n) -> In u (visitList n).
Proof. intros H. eapply subseq_in; [apply findAllTextNodes_subseq_visit|exact H]. Qed.

(** Each collected node lies in the walk of a selection root, or is itself a
    selection root. *)
Lemma collect_origin sel u :
  In u (collectTextNodes sel) ->
  exists r, In r sel /\ (u = r \/ In u (visitList r)).
Proof.
  induction sel as [|r sel IH]; simpl; [intros []|].
  intros Hu. apply in_app_or in Hu as [Hu|Hu].
  - exists r. split; [left; reflexivity|].
    destruct (is_container_type (type r)).
    + right. apply findAllTextNodes_visit, Hu.
    + destruct (node_type_eqb (type r) TEXT); [|destruct Hu].
      destruct Hu as [<-|[]]. left; reflexivity.
  - destruct (IH Hu) as [r' [Hr' H']]. exists r'. split; [right|]; auto.
Qed.


Lemma in_stagedOf gs l x : In x (stagedOf gs l) -> In (fst x) l /\ classify gs (fst x) = Some (snd x).
Proof.
  unfold stagedOf. intros H. apply in_flat_map in H as [tn [Htn Hx]].
  destruct (classify gs tn) as [mp|] eqn:E; [|destruct Hx].
  destruct Hx as [<-|[]]. simpl. auto.
Qed.


Lemma lookup_mapping_newName k mp :
  lookup_mapping k styleCategories = Some mp -> defaultFrameName (newName mp) = false.
Proof.
  unfold styleCategories, categories. cbn [map lookup_mapping].
  repeat (destruct (String.eqb _ k); [intros H; inversion H; reflexivity|]).
  intros H; discriminate H.
Qed.

Lemma styleCategories_get_newName k mp :
  styleCategories_get k = Some mp -> defaultFrameName (newName mp) = false.
Proof.
  unfold styleCategories_get.
  destruct (lookup_mapping k styleCategories) as [m|] eqn:E.
  - intros H; injection H as <-. exact (lookup_mapping_newName k m E).
  - destruct (mem_string k objectPrototypeProps); intros H; [|discriminate H].
    injection H as <-. reflexivity.
Qed.

Lemma classify_newName gs tn mp : classify gs tn = Some mp -> defaultFrameName (newName mp) = false.
Proof.
  unfold classify. destruct (textStyleId tn); [|discriminate].
  destruct (String.eqb s ""); [discriminate|].
  destruct (gs s); [|discriminate].
  destruct (style_type_eqb (stype s0) TEXT_STYLE); [|discriminate].
  apply styleCategories_get_newName.
Qed.


Lemma in_mismatches gs gv sel m :
  In m (expectedMismatches gs gv sel) ->
  exists x, In x (stagedOf gs (collectTextNodes sel)) /\ colorOk gs gv x = false /\ m = fst x.
Proof.
  unfold expectedMismatches. intros H. apply in_map_iff in H as [x [<- Hx]].
  apply filter_In in Hx as [Hx Hok]. exists x. split; [exact Hx|]. split; [|reflexivity].
  destruct (colorOk gs gv x); [discriminate|reflexivity].
Qed.



Lemma mem_string_In s l : mem_string s l = true <-> In s l.
Proof.
  induction l as [|x l IH]; simpl; [split; [discriminate|intros []]|].
  rewrite orb_true_iff, IH, String.eqb_eq. split; intros [H|H]; auto.
Qed.

Lemma includes_In v l : includes v l = true <-> In v l.
Proof.
  unfold includes. rewrite existsb_exists. split.
  - intros [w [Hw E]]. apply js_eqb_eq in E. subst w. exact Hw.
  - intros H. exists v. split; [exact H|apply js_eqb_refl].
Qed.

Lemma NoDup_map_inj {A B} (f : A -> B) l u v :
  NoDup (map f l) -> In u l -> In v l -> f u = f v -> u = v.
Proof.
  induction l as [|x l IH]; simpl; [intros _ []|].
  intros Hnd Hu Hv E. inversion Hnd as [|? ? Hx Hnd']; subst.
  destruct Hu as [<-|Hu]; destruct Hv as [<-|Hv]; auto.
  - exfalso; apply Hx. rewrite E. apply in_map; exact Hv.
  - exfalso; apply Hx. rewrite <- E. apply in_map; exact Hu.
Qed.

Lemma requests_quiet l :
  forallb is_request l = true ->
  forallb (fun e => negb (is_final e)) l = true /\
  forallb (fun e => negb (is_set_selection e)) l = true.
Proof.
  induction l as [|e l IH]; simpl; [auto|].
  rewrite andb_true_iff. intros [He Hl]. destruct (IH Hl) as [H1 H2].
  rewrite H1, H2. destruct e; simpl in He; try discriminate; auto.
Qed.

Lemma run_pick_indep gs gv pick1 pick2 s :
  renameAndCheckColors gs gv pick1 s = renameAndCheckColors gs gv pick2 s.
Proof.
  unfold renameAndCheckColors.
  destruct (st_selection s) as [|r sel]; [reflexivity|].
  destruct (renameFramesAll (r :: sel) (st_names s) 0) as [nm1 fc].
  destruct (collectTextNodes (r :: sel)) as [|t ts]; [reflexivity|].
  destruct (p1_staged (firstPass gs (t :: ts) (mkPass1 nm1 [] (st_log s) 0 []))) as [|x xs];
    [reflexivity|].
  destruct (startChecks gs (x :: xs) _ _) as [[pend c] lg].
  rewrite !promiseAll_settles. reflexivity.
Qed.

(** C1: a staged node whose first bound fill variable resolves to nothing
    (null or a rejected request) is not ok; its fill style is not looked up
    at all (the style cache and the log gain only the variable request). *)
Theorem unresolved_variable_not_ok gs gv tn mp c lg v rest :
  boundFills tn = v :: rest ->
  gv v = VarNull \/ gv v = VarRejected ->
  colorCheckStart gs (tn, mp) c lg = (PVar v (expectedColors mp) tn, c, lg ++ [EvGetVariable v]) /\
  settleOne gv (PVar v (expectedColors mp) tn) = Some tn.
Proof.
  intros Hb Hv. unfold colorCheckStart. rewrite Hb. split; [reflexivity|].
  cbn [settleOne]. destruct Hv as [-> | ->]; reflexivity.
Qed.

(** C6: with a style cache that agrees with the resolver, the callback of a
    staged node resolves to null (the node is ok) iff its colour identifier
    is permitted for its mapping or is a state colour; in particular the
    identifier ["colors/state/error"] is always ok. *)
Theorem staged_ok_iff gs gv tn mp c lg p c' lg' :
  cache_ok gs c ->
  colorCheckStart gs (tn, mp) c lg = (p, c', lg') ->
  (settleOne gv p = None <->
   exists cid, colorIdentifier gs gv tn = Some cid /\
               (In (Some cid) (expectedColors mp) \/ In cid stateColors)) /\
  (colorIdentifier gs gv tn = Some "colors/state/error" -> settleOne gv p = None).
Proof.
  intros Hc Hs. destruct (colorCheckStart_spec gs gv _ _ _ _ _ _ Hc Hs) as [_ Hp].
  rewrite Hp. unfold colorOk. cbn [fst snd].
  split.
  - destruct (colorIdentifier gs gv tn) as [cid|].
    + split.
      * destruct (includes (Some cid) (expectedColors mp) || mem_string cid stateColors) eqn:E;
          [|discriminate]. intros _. exists cid. split; [reflexivity|].
        rewrite <- includes_In, <- mem_string_In. apply orb_true_iff; exact E.
      * intros [cid' [E H]]. injection E as <-. rewrite <- includes_In, <- mem_string_In in H.
        apply orb_true_iff in H. rewrite H. reflexivity.
    + split; [discriminate|]. intros [cid [E _]]; discriminate.
  - intros ->. rewrite orb_comm. reflexivity.
Qed.

(** C8: the mismatches are the not-ok staged nodes, in collection order, and
    the run does not depend on the order in which the pending requests
    settle. *)
Theorem mismatches_in_order gs gv pick1 pick2 s :
  renameAndCheckColors gs gv pick1 s = renameAndCheckColors gs gv pick2 s /\
  mismatchedNodes (snd (renameAndCheckColors gs gv pick1 s)) =
    map fst (filter (fun x => negb (colorOk gs gv x))
                    (stagedOf gs (collectTextNodes (st_selection s)))).
Proof.
  split; [apply run_pick_indep|].
  destruct (run_spec gs gv pick1 s) as [_ [Hr _]]. rewrite Hr. reflexivity.
Qed.

(** C9: every run appends to the log some requests (and, with mismatches,
    the selection and viewport updates), then exactly one notification, then
    the close of the plugin, and nothing after it. *)
Theorem one_notification_then_close gs gv pick s :
  exists pre msg,
    st_log (fst (renameAndCheckColors gs gv pick s)) =
      st_log s ++ pre ++ [EvNotify msg; EvClosePlugin] /\
    forallb (fun e => negb (is_final e)) pre = true.
Proof.
  destruct (run_spec gs gv pick s) as [_ [_ [_ [reqs [msg [Hl [Hq _]]]]]]].
  set (mm := expectedMismatches gs gv (st_selection s)) in *.
  exists (reqs ++ match mm with [] => []
                  | _ => [EvSetSelection (map id mm); EvScrollIntoView (map id mm)] end), msg.
  split; [rewrite Hl, <- !app_assoc; reflexivity|].
  rewrite forallb_app, (proj1 (requests_quiet _ Hq)). destruct mm; reflexivity.
Qed.

(** C10: when the run finds no mismatch the selection is left as it was and
    no selection update is logged; otherwise the selection becomes the
    mismatches, and the update is logged. *)
Theorem selection_only_on_mismatch gs gv pick s :
  exists new,
    st_log (fst (renameAndCheckColors gs gv pick s)) = st_log s ++ new /\
    match mismatchedNodes (snd (renameAndCheckColors gs gv pick s)) with
    | [] => st_selection (fst (renameAndCheckColors gs gv pick s)) = st_selection s /\
            forallb (fun e => negb (is_set_selection e)) new = true
    | mm => st_selection (fst (renameAndCheckColors gs gv pick s)) = mm /\
            In (EvSetSelection (map id mm)) new
    end.
Proof.
  destruct (run_spec gs gv pick s) as [_ [Hr [Hsel [reqs [msg [Hl [Hq _]]]]]]].
  rewrite Hr, Hsel. cbn [mismatchedNodes].
  set (mm := expectedMismatches gs gv (st_selection s)) in *.
  eexists. split; [exact Hl|].
  destruct mm as [|m ms].
  - split; [reflexivity|]. rewrite !forallb_app, (proj2 (requests_quiet _ Hq)). reflexivity.
  - split; [reflexivity|]. apply in_or_app; right. left; reflexivity.
Qed.

Lemma tail_no_requests (mm : list node) msg :
  let tl := (match mm with [] => []
             | _ => [EvSetSelection (map id mm); EvScrollIntoView (map id mm)] end)
            ++ [EvNotify msg; EvClosePlugin] in
  styleReqs tl = [] /\ varReqs tl = [].
Proof. destruct mm; split; reflexivity. Qed.


Ltac nodup_nat :=
  cbn; repeat (apply NoDup_cons; [cbn; intuition discriminate|]); apply NoDup_nil.

(** C2 (amended): each style id is requested at most once per run, the text
    and fill lookups sharing the style cache; the variable requests are one
    per staged node that has a bound fill variable, in staging order, with
    repetitions. *)
Theorem style_requests_once gs gv pick s :
  exists new,
    st_log (fst (renameAndCheckColors gs gv pick s)) = st_log s ++ new /\
    NoDup (styleReqs new) /\
    varReqs new = flat_map (fun x => firstVar (fst x))
                           (stagedOf gs (collectTextNodes (st_selection s))).
Proof.
  destruct (run_spec gs gv pick s) as [_ [_ [_ [reqs [msg [Hl [_ [Hnd Hv]]]]]]]].
  set (mm := expectedMismatches gs gv (st_selection s)) in *.
  eexists. split; [exact Hl|].
  destruct (tail_no_requests mm msg) as [Ts Tv].
  rewrite styleReqs_app, varReqs_app, Ts, Tv, !app_nil_r. split; assumption.
Qed.

(** Preloading the text style ids [id1, id1, id2, null, id1] requests two
    styles. *)
Example style_requests_example :
  styleReqs (st_log (fst (renameAndCheckColors gsDoc gvNull pickFirst
    (stDoc [textWithStyle 1 (Some "S:heading"); textWithStyle 2 (Some "S:heading");
            textWithStyle 3 (Some "S:other"); textWithStyle 4 None;
            textWithStyle 5 (Some "S:heading")])))) = ["S:heading"; "S:other"].
Proof. vm_compute. reflexivity. Qed.

(** C2 (counterexample): two staged texts bound to the same variable make
    two requests for it. *)
Lemma variable_requested_twice :
  varReqs (st_log (fst (renameAndCheckColors gsDoc gvBrand pickFirst (stDoc [frameTwoTexts]))))
    = ["V:brand"; "V:brand"] /\
  ~ NoDup (varReqs (st_log (fst (renameAndCheckColors gsDoc gvBrand pickFirst
                                   (stDoc [frameTwoTexts]))))).
Proof.
  assert (E : varReqs (st_log (fst (renameAndCheckColors gsDoc gvBrand pickFirst
                (stDoc [frameTwoTexts])))) = ["V:brand"; "V:brand"])
    by (vm_compute; reflexivity).
  split; [exact E|]. rewrite E. intros H. inversion H as [|? ? Hn _]. apply Hn; left; reflexivity.
Qed.

(** The staged list is the concatenation of what each selection root's own
    collection stages. *)
Lemma stagedOf_app gs l1 l2 : stagedOf gs (l1 ++ l2) = stagedOf gs l1 ++ stagedOf gs l2.
Proof. unfold stagedOf. apply flat_map_app. Qed.

Lemma stagedOf_roots gs sel :
  stagedOf gs (collectTextNodes sel) = flat_map (fun r => stagedOf gs (collectTextNodes [r])) sel.
Proof.
  induction sel as [|r sel IH]; [reflexivity|].
  cbn [collectTextNodes flat_map]. rewrite app_nil_r, stagedOf_app, IH. reflexivity.
Qed.

Lemma count_occ_NoDup_map {A} (f : A -> nat) (L : list A) i :
  NoDup (map f L) ->
  count_occ Nat.eq_dec (map f L) i = if existsb (fun x => Nat.eqb (f x) i) L then 1 else 0.
Proof.
  induction L as [|x L IH]; intros Hnd; [reflexivity|].
  inversion Hnd as [|? ? Hx HL]; subst. cbn [map count_occ existsb].
  destruct (Nat.eq_dec (f x) i) as [E|E].
  - rewrite (proj2 (Nat.eqb_eq _ _) E). cbn [orb].
    rewrite IH by exact HL. subst i.
    destruct (existsb (fun y => Nat.eqb (f y) (f x)) L) eqn:Ex; [|reflexivity].
    exfalso. apply existsb_exists in Ex as [y [Hy Ey]].
    apply Nat.eqb_eq in Ey. apply Hx. rewrite <- Ey. apply in_map; exact Hy.
  - rewrite (proj2 (Nat.eqb_neq _ _) E). cbn [orb]. apply IH, HL.
Qed.

Lemma staged_NoDup gs sel :
  NoDup (map id (all_nodes sel)) ->
  NoDup (map (fun x => id (fst x)) (stagedOf gs (collectTextNodes sel))).
Proof.
  intros Hnd. rewrite <- (map_map fst id).
  eapply subseq_NoDup; [|exact Hnd].
  apply subseq_map. eapply subseq_trans; [apply stagedOf_subseq | apply collect_subseq].
Qed.

Lemma count_staged_roots gs sel :
  (forall r, In r sel -> NoDup (map id (subtree_nodes r))) ->
  forall i, count_occ Nat.eq_dec (map (fun x => id (fst x)) (stagedOf gs (collectTextNodes sel))) i =
    List.length (filter (fun r => existsb (fun x => Nat.eqb (id (fst x)) i)
                                         (stagedOf gs (collectTextNodes [r]))) sel).
Proof.
  intros Hr i. rewrite stagedOf_roots.
  induction sel as [|r sel IH]; [reflexivity|].
  cbn [flat_map filter]. rewrite map_app, count_occ_app.
  rewrite (count_occ_NoDup_map (fun x => id (fst x))).
  - rewrite IH by (intros r' Hr'; apply Hr; right; exact Hr').
    destruct (existsb _ _); cbn [List.length]; lia.
  - apply staged_NoDup. unfold all_nodes. cbn [flat_map]. rewrite app_nil_r.
    apply Hr; left; reflexivity.
Qed.

(** C3 (amended): text collection does not deduplicate.  With distinct ids
    within each selected subtree, a node id occurs among the staged nodes
    once for every selection root whose own collection stages it; when no id
    occurs twice across the selected subtrees, no node is staged twice. *)
Theorem staged_once_per_root gs sel nm lg :
  (forall r, In r sel -> NoDup (map id (subtree_nodes r))) ->
  let staged := map (fun x => id (fst x))
                  (p1_staged (firstPass gs (collectTextNodes sel) (mkPass1 nm [] lg 0 []))) in
  (forall i, count_occ Nat.eq_dec staged i =
     List.length (filter (fun r => existsb (fun x => Nat.eqb (id (fst x)) i)
                                          (stagedOf gs (collectTextNodes [r]))) sel)) /\
  (NoDup (map id (all_nodes sel)) -> NoDup staged).
Proof.
  intros Hr staged. subst staged.
  destruct (firstPass_spec gs (collectTextNodes sel) (mkPass1 nm [] lg 0 []) (cache_ok_nil gs))
    as [_ [Hs _]].
  rewrite Hs. cbn [p1_staged app].
  split; [exact (count_staged_roots gs sel Hr) | apply staged_NoDup].
Qed.

(** C3 (counterexample): a text selected both directly and through its frame
    is staged twice; its variable is requested twice and it is listed twice
    among the mismatches. *)
Lemma staged_twice :
  map (fun x => id (fst x))
    (p1_staged (firstPass gsDoc (collectTextNodes [frameOneText; textBrandA])
                          (mkPass1 namesDoc [] [] 0 []))) = [2; 2] /\
  varReqs (st_log (fst (renameAndCheckColors gsDoc gvBrand pickFirst
                          (stDoc [frameOneText; textBrandA])))) = ["V:brand"; "V:brand"] /\
  mismatchedNodes (snd (renameAndCheckColors gsDoc gvBrand pickFirst
                          (stDoc [frameOneText; textBrandA]))) = [textBrandA; textBrandA].
Proof. repeat split; vm_compute; reflexivity. Qed.

(** C4: a hidden text node selected directly is collected, renamed and
    audited, while the same node under a selected frame is skipped. *)
Theorem hidden_text_root_collected :
  visible hiddenText = false /\
  collectTextNodes [hiddenText] = [hiddenText] /\
  collectTextNodes [mkNode 1 FRAME true None None [] [hiddenText]] = [] /\
  renamedCount (snd (renameAndCheckColors gsDoc gvNull pickFirst (stDoc [hiddenText]))) = 1 /\
  mismatchedNodes (snd (renameAndCheckColors gsDoc gvNull pickFirst (stDoc [hiddenText])))
    = [hiddenText].
Proof. repeat split; vm_compute; reflexivity. Qed.

(** C5 (amended): with distinct ids in the subtree, the frame normalizer
    renames to "item" exactly the visible nodes reached without crossing a
    hidden node whose type is FRAME and whose name is a default frame name,
    returns their number, and leaves every node it does not reach unchanged. *)
Theorem frame_normalizer_spec n nm :
  NoDup (map id (subtree_nodes n)) ->
  (forall i, fst (renameFrames n nm) i =
     if existsb (fun u => Nat.eqb (id u) i &&
                   (node_type_eqb (type u) FRAME && defaultFrameName (nm i))) (visitList n)
     then Some "item" else nm i) /\
  snd (renameFrames n nm) =
    List.length (filter (fun u => node_type_eqb (type u) FRAME &&
                                  defaultFrameName (nm (id u))) (visitList n)) /\
  (forall u, In u (subtree_nodes n) -> ~ In u (visitList n) ->
     fst (renameFrames n nm) (id u) = nm (id u)).
Proof.
  intros Hnd.
  pose proof (renameFrames_walk n nm 0) as Hw.
  destruct (frameWalk_spec (visitList n) nm 0 (NoDup_visit_ids n Hnd)) as [H1 H2].
  rewrite <- Hw in H1, H2. cbn [fst snd] in H1, H2.
  split; [exact H1|]. split; [exact H2|].
  intros u Hu Hnv. rewrite H1.
  destruct (existsb _ (visitList n)) eqn:E; [|reflexivity].
  exfalso. apply existsb_exists in E as [v [Hv Ev]].
  apply andb_true_iff in Ev as [Ei _]. apply Nat.eqb_eq in Ei.
  apply Hnv. replace u with v; [exact Hv|].
  apply (NoDup_map_inj id (subtree_nodes n) v u Hnd); [|exact Hu|exact Ei].
  exact (subseq_in _ _ v (visit_subseq_subtree n) Hv).
Qed.

(** C5 (counterexample): a visible component named "Frame 2" is a container
    but keeps its name, and nothing is counted. *)
Lemma component_named_frame_kept :
  is_container_type (type componentNamedFrame) = true /\
  visible componentNamedFrame = true /\
  defaultFrameName (namesDoc (id componentNamedFrame)) = true /\
  fst (renameFrames componentNamedFrame namesDoc) (id componentNamedFrame) = Some "Frame 2" /\
  snd (renameFrames componentNamedFrame namesDoc) = 0.
Proof. repeat split; vm_compute; reflexivity. Qed.

(* ------------------------------------------------------------------ *)
(** ** Witnesses: the theorems applied to concrete documents *)

(** A heading text bound to a variable that resolves to null, whose fill
    style would be permitted, is not ok. *)
Lemma unresolved_variable_not_ok_witness :
  (boundFills textStaleVar = ["V:gone"] /\
   (gvNull "V:gone" = VarNull \/ gvNull "V:gone" = VarRejected)) /\
  option_map sname (gsDoc "S:fill-ok") = Some "colors/content/text/regular/heading" /\
  In (Some "colors/content/text/regular/heading") (expectedColors headingMapping) /\
  (colorCheckStart gsDoc (textStaleVar, headingMapping) [] [] =
     (PVar "V:gone" (expectedColors headingMapping) textStaleVar, [], [] ++ [EvGetVariable "V:gone"]) /\
   settleOne gvNull (PVar "V:gone" (expectedColors headingMapping) textStaleVar) = Some textStaleVar).
Proof.
  split; [split; [reflexivity | left; reflexivity]|].
  split; [reflexivity|]. split; [simpl; auto|].
  apply (unresolved_variable_not_ok gsDoc gvNull textStaleVar headingMapping [] [] "V:gone" []);
    [reflexivity | left; reflexivity].
Defined.

(** A heading text filled with the error state colour is ok. *)
Lemma staged_ok_iff_witness :
  let r := colorCheckStart gsDoc (textErrorFill, headingMapping) [] [] in
  (cache_ok gsDoc [] /\ r = (fst (fst r), snd (fst r), snd r)) /\
  colorIdentifier gsDoc gvNull textErrorFill = Some "colors/state/error" /\
  ((settleOne gvNull (fst (fst r)) = None <->
    exists cid, colorIdentifier gsDoc gvNull textErrorFill = Some cid /\
                (In (Some cid) (expectedColors headingMapping) \/ In cid stateColors)) /\
   (colorIdentifier gsDoc gvNull textErrorFill = Some "colors/state/error" ->
    settleOne gvNull (fst (fst r)) = None)).
Proof.
  intros r. split; [split; [apply cache_ok_nil | reflexivity]|].
  split; [reflexivity|].
  apply (staged_ok_iff gsDoc gvNull textErrorFill headingMapping [] []
           (fst (fst r)) (snd (fst r)) (snd r)); [apply cache_ok_nil | reflexivity].
Defined.

(** A frame with a text below it, selected together with that text: the
    text is staged once per root. *)
Lemma staged_once_per_root_witness :
  (forall r, In r [frameOneText; textBrandA] -> NoDup (map id (subtree_nodes r))) /\
  (let staged := map (fun x => id (fst x))
                   (p1_staged (firstPass gsDoc (collectTextNodes [frameOneText; textBrandA])
                                         (mkPass1 namesDoc [] [] 0 []))) in
   (forall i, count_occ Nat.eq_dec staged i =
      List.length (filter (fun r => existsb (fun x => Nat.eqb (id (fst x)) i)
                                           (stagedOf gsDoc (collectTextNodes [r])))
                          [frameOneText; textBrandA])) /\
  (NoDup (map id (all_nodes [frameOneText; textBrandA])) -> NoDup staged)).
Proof.
  assert (H : forall r, In r [frameOneText; textBrandA] -> NoDup (map id (subtree_nodes r)))
    by (intros r [<- | [<- | []]]; nodup_nat).
  split; [exact H|].
  exact (staged_once_per_root gsDoc [frameOneText; textBrandA] namesDoc [] H).
Defined.

(** A visible frame named "Frame 2" above a text. *)
Lemma frame_normalizer_spec_witness :
  NoDup (map id (subtree_nodes frameOneText)) /\
  (forall i, fst (renameFrames frameOneText namesDoc) i =
     if existsb (fun u => Nat.eqb (id u) i &&
                   (node_type_eqb (type u) FRAME && defaultFrameName (namesDoc i)))
                (visitList frameOneText)
     then Some "item" else namesDoc i) /\
  snd (renameFrames frameOneText namesDoc) =
    List.length (filter (fun u => node_type_eqb (type u) FRAME &&
                                  defaultFrameName (namesDoc (id u))) (visitList frameOneText)) /\
  (forall u, In u (subtree_nodes frameOneText) -> ~ In u (visitList frameOneText) ->
     fst (renameFrames frameOneText namesDoc) (id u) = namesDoc (id u)).
Proof.
  split; [nodup_nat|].
  apply (frame_normalizer_spec frameOneText namesDoc). nodup_nat.
Defined.


(* ------------------------------------------------------------------ *)
(** ** Further properties of the code *)

(** *** Decimal printing of the counts *)

Lemma digit_char_value n : n < 10 -> nat_of_ascii (ascii_of_nat (48 + n)) = 48 + n.
Proof. intros H. apply nat_ascii_embedding. lia. Qed.

Lemma digits_aux_value f : forall n acc v, n < f ->
  exists k, decimal_value (digits_aux f n acc) v = decimal_value acc (v * 10 ^ k + n).
Proof.
  induction f as [|f IH]; intros n acc v Hn; [lia|].
  cbn [digits_aux].
  pose proof (Nat.mod_upper_bound n 10 ltac:(lia)) as Hm.
  assert (Hd : nat_of_ascii (ascii_of_nat (48 + n mod 10)) - 48 = n mod 10)
    by (rewrite digit_char_value by exact Hm; lia).
  destruct (n <? 10) eqn:E.
  - apply Nat.ltb_lt in E. exists 1. cbn [decimal_value]. rewrite Hd, Nat.mod_small by lia.
    reflexivity.
  - apply Nat.ltb_ge in E.
    destruct (IH (n / 10) (String (ascii_of_nat (48 + n mod 10)) acc) v) as [k Hk].
    { pose proof (Nat.div_lt n 10 ltac:(lia) ltac:(lia)). lia. }
    exists (S k). rewrite Hk. cbn [decimal_value]. rewrite Hd. f_equal.
    rewrite Nat.pow_succ_r'. pose proof (Nat.div_mod_eq n 10). nia.
Qed.

Lemma is_digit_char n : n < 10 -> is_digit (ascii_of_nat (48 + n)) = true.
Proof.
  intros H. unfold is_digit. rewrite digit_char_value by exact H.
  apply andb_true_iff; split; apply Nat.leb_le; lia.
Qed.

Lemma digits_aux_all_digits f : forall n acc,
  all_digits acc = true -> all_digits (digits_aux f n acc) = true.
Proof.
  induction f as [|f IH]; intros n acc Hacc; cbn [digits_aux]; [exact Hacc|].
  pose proof (Nat.mod_upper_bound n 10 ltac:(lia)) as Hm.
  assert (Hs : all_digits (String (ascii_of_nat (48 + n mod 10)) acc) = true)
    by (cbn [all_digits]; rewrite is_digit_char by exact Hm; exact Hacc).
  destruct (n <? 10); [exact Hs | apply IH; exact Hs].
Qed.

Lemma digits_aux_head f : forall n acc, n < f ->
  exists c rest, digits_aux f n acc = String c rest /\ is_digit c = true /\
                 (c = "0"%char -> n = 0).
Proof.
  induction f as [|f IH]; intros n acc Hn; [lia|].
  cbn [digits_aux].
  pose proof (Nat.mod_upper_bound n 10 ltac:(lia)) as Hm.
  destruct (n <? 10) eqn:E.
  - apply Nat.ltb_lt in E. rewrite Nat.mod_small by exact E.
    exists (ascii_of_nat (48 + n)), acc. split; [reflexivity|].
    split; [apply is_digit_char; exact E|].
    intros Hc. apply (f_equal nat_of_ascii) in Hc.
    rewrite digit_char_value in Hc by exact E. cbn in Hc. lia.
  - apply Nat.ltb_ge in E.
    destruct (IH (n / 10) (String (ascii_of_nat (48 + n mod 10)) acc)) as [c [r [Hr [Hd Hz]]]].
    { pose proof (Nat.div_lt n 10 ltac:(lia) ltac:(lia)). lia. }
    exists c, r. split; [exact Hr|]. split; [exact Hd|].
    intros Hc. specialize (Hz Hc). pose proof (Nat.div_mod_eq n 10). lia.
Qed.

(** *** The summary message *)

Lemma join_head sep x l : exists r, join sep (x :: l) = String.append x r.
Proof.
  destruct l as [|y l].
  - exists ""%string. cbn [join]. induction x as [|a x IH]; [reflexivity|].
    cbn. rewrite <- IH. reflexivity.
  - exists (String.append sep (join sep (y :: l))). reflexivity.
Qed.

(** A message whose first part starts with a printed count starts with a
    digit. *)
Lemma message_digit_head n rest ps :
  exists c r,
    String.append (join "; " (sappend (string_of_nat n :: rest) :: ps)) "." = String c r /\
    is_digit c = true.
Proof.
  destruct (join_head "; " (sappend (string_of_nat n :: rest)) ps) as [r Hr].
  rewrite Hr. cbn [sappend fold_right].
  destruct (digits_aux_head (S n) n "" ltac:(lia)) as [c [r' [Hs [Hd _]]]].
  unfold string_of_nat. rewrite Hs.
  exists c. eexists. split; [reflexivity | exact Hd].
Qed.

(** The summary parts the run ends with, when something is reported, start
    with a printed count. *)
Lemma summaryParts_counted fc rc mm :
  fc <> 0 \/ rc <> 0 \/ mm <> [] ->
  exists n rest ps, summaryParts fc rc mm = sappend (string_of_nat n :: rest) :: ps.
Proof.
  intros H. unfold summaryParts.
  destruct (0 <? fc) eqn:Ef; [cbn [app]; do 3 eexists; reflexivity|].
  destruct (0 <? rc) eqn:Er; [cbn [app]; do 3 eexists; reflexivity|].
  destruct mm as [|m ms]; [|cbn [app]; do 3 eexists; reflexivity].
  apply Nat.ltb_ge in Ef, Er. exfalso. destruct H as [H|[H|H]]; [lia|lia|apply H; reflexivity].
Qed.

(** *** [style.name.split('/')[0]] *)

(** [first_segment s] contains no "/", and [s] is [first_segment s]
    followed either by nothing or by a "/" and the rest. *)
Lemma first_segment_decomp s :
  exists rest, s = String.append (first_segment s) rest /\
    (rest = EmptyString \/ exists r, rest = String "/" r) /\
    ~ In "/"%char (list_ascii_of_string (first_segment s)).
Proof.
  induction s as [|c s IH]; cbn [first_segment].
  - exists EmptyString. split; [reflexivity|]. split; [left; reflexivity|]. intros [].
  - destruct (Ascii.eqb c "/") eqn:E.
    + apply Ascii.eqb_eq in E. subst c. exists (String "/" s).
      split; [reflexivity|]. split; [right; eexists; reflexivity|]. intros [].
    + destruct IH as [rest [Hs [Hr Hn]]]. exists rest.
      split; [cbn; rewrite <- Hs; reflexivity|]. split; [exact Hr|].
      cbn. intros [Hc|Hc]; [subst c; discriminate E | exact (Hn Hc)].
Qed.

(** *** Text collection as a filter of the visited nodes *)

Lemma filter_flat_map {A B} (f : B -> bool) (g : A -> list B) l :
  filter f (flat_map g l) = flat_map (fun x => filter f (g x)) l.
Proof. induction l as [|x l IH]; simpl; [reflexivity|]. rewrite filter_app, IH. reflexivity. Qed.

Lemma flat_map_ext_in' {A B} (f g : A -> list B) l :
  (forall x, In x l -> f x = g x) -> flat_map f l = flat_map g l.
Proof.
  induction l as [|x l IH]; intros H; simpl; [reflexivity|].
  rewrite H by (left; reflexivity). rewrite IH; [reflexivity|]. intros y Hy; apply H; right; exact Hy.
Qed.

(** When text nodes have no children, [findAllTextNodes] returns exactly the
    text nodes of its walk, in document order: the visible ones whose
    ancestors up to the root are all visible. *)
Lemma findAllTextNodes_filter_visit n :
  (forall u, In u (subtree_nodes n) -> node_type_eqb (type u) TEXT = true -> children u = []) ->
  findAllTextNodes n = filter (fun u => node_type_eqb (type u) TEXT) (visitList n).
Proof.
  induction n as [i t v ts fs bf cs IH] using node_ind'. intros H.
  rewrite findAllTextNodes_eq. cbn [visitList visible type children].
  destruct v; cbn [negb]; [|reflexivity].
  cbn [filter type]. destruct (node_type_eqb t TEXT) eqn:Et.
  - assert (Hc : cs = []) by (apply (H (mkNode i t true ts fs bf cs)); [left; reflexivity | exact Et]).
    subst cs. reflexivity.
  - rewrite filter_flat_map. apply flat_map_ext_in'. intros c Hc.
    rewrite Forall_forall in IH. apply IH; [exact Hc|].
    intros u Hu. apply H. right. apply in_flat_map. exists c. split; assumption.
Qed.

(** *** The unused renamer [renameDefaultFramesRecursively] *)

Lemma frameStep_fst L : forall nm a b,
  fst (fold_left frameStep L (nm, a)) = fst (fold_left frameStep L (nm, b)).
Proof.
  intros nm a b. replace a with (a + 0) by lia. replace b with (b + 0) by lia.
  rewrite !frameStep_shift. reflexivity.
Qed.

Lemma legacy_walk n : forall nm c,
  fst (fold_left frameStep (subtree_nodes n) (nm, c)) = renameDefaultFramesRecursively n nm.
Proof.
  induction n as [i t v ts fs bf cs IH] using node_ind'. intros nm c.
  assert (Hgo : forall nm c,
    fst (fold_left frameStep (flat_map subtree_nodes cs) (nm, c)) =
    (fix go (cs : list node) (nm : names_t) : names_t :=
       match cs with
       | [] => nm
       | ch :: cs' => go cs' (renameDefaultFramesRecursively ch nm)
       end) cs nm).
  { clear nm c. induction IH as [|ch cs Hch Hcs IHcs]; intros nm c; [reflexivity|].
    cbn [flat_map]. rewrite fold_left_app.
    destruct (fold_left frameStep (subtree_nodes ch) (nm, c)) as [nm' c'] eqn:E.
    specialize (Hch nm c). rewrite E in Hch. cbn [fst] in Hch. subst nm'.
    apply IHcs. }
  cbn [subtree_nodes fold_left renameDefaultFramesRecursively].
  rewrite frameStep_eq. cbn [type id children].
  destruct (node_type_eqb t FRAME && defaultFrameName (nm i)); apply Hgo.
Qed.

Lemma visitList_all_visible n :
  forallb visible (subtree_nodes n) = true -> visitList n = subtree_nodes n.
Proof.
  induction n as [i t v ts fs bf cs IH] using node_ind'.
  cbn [subtree_nodes visitList forallb visible children]. intros H.
  apply andb_true_iff in H as [Hv H]. subst v. f_equal.
  induction IH as [|c cs Hc Hcs IHcs]; [reflexivity|].
  cbn [flat_map] in *. rewrite forallb_app in H. apply andb_true_iff in H as [H1 H2].
  rewrite Hc, IHcs by assumption. reflexivity.
Qed.

(** *** Names a run leaves alone *)

Lemma frameStep_keep L : forall nm c i,
  (forall u, In u L -> id u = i ->
     node_type_eqb (type u) FRAME && defaultFrameName (nm i) = false) ->
  fst (fold_left frameStep L (nm, c)) i = nm i.
Proof.
  induction L as [|u L IH]; intros nm c i H; [reflexivity|].
  cbn [fold_left]. rewrite frameStep_eq.
  destruct (node_type_eqb (type u) FRAME && defaultFrameName (nm (id u))) eqn:E.
  - assert (Hne : id u <> i) by (intros <-; rewrite (H u (or_introl eq_refl) eq_refl) in E; discriminate).
    assert (Hs : set_name nm (id u) (Some "item") i = nm i)
      by (unfold set_name; rewrite (proj2 (Nat.eqb_neq i (id u))) by congruence; reflexivity).
    rewrite IH; [exact Hs|]. intros w Hw Hi. rewrite Hs. apply H; [right; exact Hw | exact Hi].
  - apply IH. intros w Hw Hi. apply H; [right; exact Hw | exact Hi].
Qed.


(** *** Categories inherited from [Object.prototype] *)



(* ------------------------------------------------------------------ *)
(** ** Properties of the code beyond the specification *)

(** The unused renamer [renameDefaultFramesRecursively] renames every FRAME
    with a default name anywhere in the subtree, below hidden nodes too. *)
Theorem legacy_renamer_spec n nm :
  NoDup (map id (subtree_nodes n)) ->
  forall i, renameDefaultFramesRecursively n nm i =
    if existsb (fun u => Nat.eqb (id u) i &&
                  (node_type_eqb (type u) FRAME && defaultFrameName (nm i))) (subtree_nodes n)
    then Some "item" else nm i.
Proof.
  intros Hnd i. rewrite <- (legacy_walk n nm 0).
  exact (proj1 (frameWalk_spec (subtree_nodes n) nm 0 Hnd) i).
Qed.

(** On a tree with no hidden node, the unused renamer and the renamer the
    plugin calls produce the same names. *)
Theorem legacy_renamer_agrees_when_visible n nm :
  forallb visible (subtree_nodes n) = true ->
  renameDefaultFramesRecursively n nm = fst (renameFrames n nm).
Proof.
  intros Hv. rewrite <- (legacy_walk n nm 0), <- (visitList_all_visible n Hv).
  rewrite <- renameFrames_walk. reflexivity.
Qed.

(** A run changes the name of no node other than the visited FRAMEs with a
    default name and the staged text nodes. *)
Theorem run_leaves_other_names gs gv pick s i :
  (forall u, In u (flat_map visitList (st_selection s)) -> id u = i ->
     node_type_eqb (type u) FRAME && defaultFrameName (st_names s i) = false) ->
  (forall x, In x (stagedOf gs (collectTextNodes (st_selection s))) -> id (fst x) <> i) ->
  st_names (fst (renameAndCheckColors gs gv pick s)) i = st_names s i.
Proof.
  intros Hf Ht.
  destruct (run_spec gs gv pick s) as [N1 _]. rewrite N1.
  rewrite textRename_keep.
  - rewrite renameFramesAll_walk. apply frameStep_keep. exact Hf.
  - intros y Hy Hi. exfalso. exact (Ht y Hy Hi).
Qed.

(** After a run, no FRAME the walk visited has a default frame name. *)
Theorem no_default_frame_after_run gs gv pick s u :
  In u (flat_map visitList (st_selection s)) -> node_type_eqb (type u) FRAME = true ->
  defaultFrameName (st_names (fst (renameAndCheckColors gs gv pick s)) (id u)) = false.
Proof.
  intros Hu Hf.
  destruct (run_spec gs gv pick s) as [N1 _]. rewrite N1.
  apply textRename_persist.
  - intros x Hx. apply in_stagedOf in Hx as [_ Hx]. eapply classify_newName; eauto.
  - rewrite renameFramesAll_walk. apply frameStep_done; assumption.
Qed.


(** The notification is "✨ Everything is perfect." exactly when no frame and
    no text layer was renamed and no mismatch was found. *)
Theorem summary_perfect_iff fc rc mm :
  String.append (join "; " (summaryParts fc rc mm)) "." = "✨ Everything is perfect." <->
  fc = 0 /\ rc = 0 /\ mm = [].
Proof.
  split.
  - intros H.
    destruct (Nat.eq_dec fc 0) as [Hf|Hf]; [|exfalso].
    destruct (Nat.eq_dec rc 0) as [Hr|Hr]; [|exfalso].
    destruct mm as [|m ms]; [auto|exfalso].
    all: destruct (summaryParts_counted fc rc mm ltac:(tauto)) as [n [rest [ps Hp]]]
         || destruct (summaryParts_counted fc rc (m :: ms) ltac:(right; right; discriminate))
           as [n [rest [ps Hp]]].
    all: rewrite Hp in H; destruct (message_digit_head n rest ps) as [c [r [Hm Hd]]];
         rewrite Hm in H; injection H as Hc _; subst c; discriminate Hd.
  - intros [-> [-> ->]]. reflexivity.
Qed.

(** The counts in the notification are printed in decimal: [string_of_nat n]
    is a non-empty string of digits, without a leading zero unless [n] is 0,
    that reads back as [n]. *)
Theorem string_of_nat_decimal n :
  all_digits (string_of_nat n) = true /\
  decimal_value (string_of_nat n) 0 = n /\
  exists c rest, string_of_nat n = String c rest /\ (c = "0"%char -> n = 0).
Proof.
  split; [apply digits_aux_all_digits; reflexivity|].
  split.
  - destruct (digits_aux_value (S n) n "" 0 ltac:(lia)) as [k Hk].
    unfold string_of_nat. rewrite Hk. reflexivity.
  - destruct (digits_aux_head (S n) n "" ltac:(lia)) as [c [r [Hs [_ Hz]]]].
    exists c, r. split; [exact Hs | exact Hz].
Qed.

(** Every node the run reports as mismatched is a text node of the selected
    trees with a category mapping; it is visible unless it was itself
    selected. *)
Theorem mismatches_are_selected_texts gs gv pick s m :
  In m (mismatchedNodes (snd (renameAndCheckColors gs gv pick s))) ->
  node_type_eqb (type m) TEXT = true /\ In m (all_nodes (st_selection s)) /\
  (visible m = true \/ In m (st_selection s)) /\ exists mp, classify gs m = Some mp.
Proof.
  intros Hm.
  destruct (run_spec gs gv pick s) as [_ [Hr _]]. rewrite Hr in Hm. cbn [mismatchedNodes] in Hm.
  apply in_mismatches in Hm as [x [Hx [_ ->]]].
  apply in_stagedOf in Hx as [Hx Hc].
  split; [exact (collect_text _ _ Hx)|].
  split; [exact (subseq_in _ _ _ (collect_subseq _) Hx)|].
  split; [|exists (snd x); exact Hc].
  destruct (collect_origin _ _ Hx) as [r [Hr' [<- | Hv]]]; [right; exact Hr'|left].
  destruct r as [i t v ts fs bf cs]. cbn [visitList visible] in Hv.
  destruct v; [|destruct Hv].
  destruct Hv as [<- | Hv]; [reflexivity|].
  apply in_flat_map in Hv as [c [_ Hv]].
  clear -Hv. revert Hv. induction c as [i t v ts fs bf cs IH] using node_ind'.
  cbn [visitList visible]. destruct v; [|intros []].
  intros [<- | Hv]; [reflexivity|].
  apply in_flat_map in Hv as [c [Hc Hv]]. rewrite Forall_forall in IH. exact (IH c Hc Hv).
Qed.

(* ------------------------------------------------------------------ *)
(** ** Witnesses of the further properties *)

Ltac text_leaves :=
  let u := fresh "u" in let Hu := fresh "Hu" in let Ht := fresh "Ht" in
  intros u Hu Ht; vm_compute in Hu;
  repeat (destruct Hu as [<- | Hu]; [vm_compute in Ht |- *; first [reflexivity | discriminate Ht] |]);
  destruct Hu.

(** A frame holding a visible and a hidden text collects the visible one. *)
Lemma findAllTextNodes_filter_visit_witness :
  (forall u, In u (subtree_nodes frameWithHidden) ->
     node_type_eqb (type u) TEXT = true -> children u = []) /\
  findAllTextNodes frameWithHidden =
    filter (fun u => node_type_eqb (type u) TEXT) (visitList frameWithHidden).
Proof.
  split; [text_leaves|].
  apply (findAllTextNodes_filter_visit frameWithHidden). text_leaves.
Defined.

(** The unused renamer renames the hidden frame below "Frame 2" too. *)
Lemma legacy_renamer_spec_witness :
  NoDup (map id (subtree_nodes frameHiddenFrame)) /\
  (forall i, renameDefaultFramesRecursively frameHiddenFrame namesFrames i =
    if existsb (fun u => Nat.eqb (id u) i &&
                  (node_type_eqb (type u) FRAME && defaultFrameName (namesFrames i)))
               (subtree_nodes frameHiddenFrame)
    then Some "item" else namesFrames i).
Proof.
  split; [nodup_nat|].
  apply (legacy_renamer_spec frameHiddenFrame namesFrames). nodup_nat.
Defined.

Lemma legacy_renamer_agrees_when_visible_witness :
  forallb visible (subtree_nodes frameTwoTexts) = true /\
  renameDefaultFramesRecursively frameTwoTexts namesDoc = fst (renameFrames frameTwoTexts namesDoc).
Proof.
  split; [reflexivity|].
  apply (legacy_renamer_agrees_when_visible frameTwoTexts namesDoc). reflexivity.
Defined.

(** A group named "Frame 3" keeps its name. *)
Lemma run_leaves_other_names_witness :
  ((forall u, In u (flat_map visitList [groupNamedFrame]) -> id u = 8 ->
      node_type_eqb (type u) FRAME && defaultFrameName (namesFrames 8) = false) /\
   (forall x, In x (stagedOf gsDoc (collectTextNodes [groupNamedFrame])) -> id (fst x) <> 8)) /\
  st_names (fst (renameAndCheckColors gsDoc gvNull pickFirst (mkSt namesFrames [groupNamedFrame] [])))
    8 = namesFrames 8.
Proof.
  assert (H1 : forall u, In u (flat_map visitList [groupNamedFrame]) -> id u = 8 ->
      node_type_eqb (type u) FRAME && defaultFrameName (namesFrames 8) = false).
  { intros u Hu Hi. vm_compute in Hu.
    repeat (destruct Hu as [<- | Hu]; [vm_compute; reflexivity |]). destruct Hu. }
  assert (H2 : forall x, In x (stagedOf gsDoc (collectTextNodes [groupNamedFrame])) ->
                         id (fst x) <> 8).
  { intros x Hx. vm_compute in Hx.
    repeat (destruct Hx as [<- | Hx]; [vm_compute; lia |]). destruct Hx. }
  split; [split; [exact H1 | exact H2]|].
  apply (run_leaves_other_names gsDoc gvNull pickFirst (mkSt namesFrames [groupNamedFrame] []) 8);
    [exact H1 | exact H2].
Defined.

Lemma no_default_frame_after_run_witness :
  (In frameTwoTexts (flat_map visitList (st_selection (stDoc [frameTwoTexts]))) /\
   node_type_eqb (type frameTwoTexts) FRAME = true) /\
  defaultFrameName (st_names (fst (renameAndCheckColors gsDoc gvBrand pickFirst
                                    (stDoc [frameTwoTexts]))) (id frameTwoTexts)) = false.
Proof.
  split; [split; [vm_compute; left; reflexivity | reflexivity]|].
  apply (no_default_frame_after_run gsDoc gvBrand pickFirst (stDoc [frameTwoTexts]) frameTwoTexts);
    [vm_compute; left; reflexivity | reflexivity].
Defined.

Lemma mismatches_are_selected_texts_witness :
  In textBrandA (mismatchedNodes (snd (renameAndCheckColors gsDoc gvBrand pickFirst
                                         (stDoc [frameTwoTexts])))) /\
  (node_type_eqb (type textBrandA) TEXT = true /\
   In textBrandA (all_nodes (st_selection (stDoc [frameTwoTexts]))) /\
   (visible textBrandA = true \/ In textBrandA (st_selection (stDoc [frameTwoTexts]))) /\
   exists mp, classify gsDoc textBrandA = Some mp).
Proof.
  split; [vm_compute; left; reflexivity|].
  apply (mismatches_are_selected_texts gsDoc gvBrand pickFirst (stDoc [frameTwoTexts]) textBrandA).
  vm_compute; left; reflexivity.
Defined.

